(** * Directory to Markdown converter: selection, walking, tree rendering

    A shallow embedding of [src/main.py] (metaconscious/DirectoryStructuredMarkdown)
    and the properties of its path-selection engine, its walker, its tree
    renderer and its document assembler. *)

From Stdlib Require Import String Ascii List Bool Arith Lia NArith.
From Stdlib Require Import Sorted Permutation.
Import ListNotations.
Open Scope string_scope.
Open Scope list_scope.

(** ** Exceptions and fallible computations *)

(** The exceptions the program can meet.  [OSError] stands for the
    [PermissionError]/[FileNotFoundError] family raised by [iterdir],
    [scandir] and [open]. *)
Inductive exn : Type :=
  | OSError (msg : string)
  | NotADirectoryError
  | UnicodeDecodeError (msg : string)
  | ValueError.

Inductive result (A : Type) : Type :=
  | Ok (a : A)
  | Raise (e : exn).
Arguments Ok {A} a.
Arguments Raise {A} e.

Definition bind {A B : Type} (r : result A) (k : A -> result B) : result B :=
  match r with
  | Ok a => k a
  | Raise e => Raise e
  end.

Notation "x <- r ;; k" := (bind r (fun x => k))
  (at level 61, r at next level, right associativity).

Section MonadicLists.
Context {A B : Type}.
Variable f : A -> result (list B).

(** [for a in l: out.extend(f(a))], stopping at the first exception. *)
Fixpoint concat_mapM (l : list A) : result (list B) :=
  match l with
  | [] => Ok []
  | a :: l' =>
      bs <- f a ;;
      rest <- concat_mapM l' ;;
      Ok (bs ++ rest)
  end.
End MonadicLists.

(** ** Strings *)

(** [sep.join(l)] *)
Fixpoint join (sep : string) (l : list string) : string :=
  match l with
  | [] => EmptyString
  | [s] => s
  | s :: l' => s ++ sep ++ join sep l'
  end.

Definition newline : string := String (ascii_of_nat 10) EmptyString.

(** [needle in s] *)
Fixpoint contains (needle s : string) : bool :=
  prefix needle s ||
  match s with
  | EmptyString => false
  | String _ s' => contains needle s'
  end.

(** ** [pathlib.Path], POSIX flavour *)

(** A path is its anchor (["/"] or none) and its components. *)
Record Path : Type := mkPath { anchored : bool; parts : list string }.

(** [str(path)] *)
Definition str (p : Path) : string :=
  match anchored p, parts p with
  | false, [] => "."
  | false, ps => join "/" ps
  | true, ps => "/" ++ join "/" ps
  end.

(** [path / name], for [name] a single component as a directory listing
    gives them. *)
Definition joinpath (p : Path) (name : string) : Path :=
  mkPath (anchored p) (parts p ++ [name]).

(** [path / c1 / ... / cn] *)
Definition extend (p : Path) (rel : list string) : Path :=
  mkPath (anchored p) (parts p ++ rel).

(** [path.name] *)
Definition name (p : Path) : string := last (parts p) EmptyString.

Fixpoint strip_prefix (base l : list string) : option (list string) :=
  match base, l with
  | [], _ => Some l
  | b :: base', x :: l' => if (b =? x)%string then strip_prefix base' l' else None
  | _ :: _, [] => None
  end.

(** [path.relative_to(base)]: raises [ValueError] when [base] is not a
    prefix of [path]. *)
Definition relative_to (p base : Path) : result Path :=
  if Bool.eqb (anchored p) (anchored base) then
    match strip_prefix (parts base) (parts p) with
    | Some rest => Ok (mkPath false rest)
    | None => Raise ValueError
    end
  else Raise ValueError.

(** [s.rfind('.')] as the pair (text before the last dot, text after it). *)
Fixpoint rsplit_dot (s : string) : option (string * string) :=
  match s with
  | EmptyString => None
  | String c s' =>
      match rsplit_dot s' with
      | Some (pre, post) => Some (String c pre, post)
      | None => if Ascii.eqb c "."%char then Some (EmptyString, s') else None
      end
  end.

(** [path.suffix.lstrip('.')]: the text after the last dot of the name,
    when that dot is neither its first nor its last character. *)
Definition suffix_lstrip (p : Path) : string :=
  match rsplit_dot (name p) with
  | Some (String _ _, String c post) => String c post
  | _ => EmptyString
  end.

(** ** [fnmatch.fnmatch] on POSIX

    [fnmatch.fnmatch(name, pat)] is [re.match(translate(pat), name)] with
    [os.path.normcase] the identity.  [translate] turns [*] into [.*],
    [?] into [.], a closed [[seq]] or [[!seq]] into a character set, and
    anything else into itself; the regular expression is matched with
    [(?s:...)\Z], that is against the whole name with [.] matching every
    character. *)
Module Fnmatch.

Inductive tok : Type :=
  | TStar
  | TAny
  | TSet (negated : bool) (ranges : list (ascii * ascii))
  | TLit (c : ascii).

(** The text between the brackets, up to the closing one, and what
    follows it; a [']'] in first position does not close the set. *)
Fixpoint until_close (s : list ascii) : option (list ascii * list ascii) :=
  match s with
  | [] => None
  | c :: s' =>
      if Ascii.eqb c "]"%char then Some ([], s')
      else match until_close s' with
           | Some (stuff, rest) => Some (c :: stuff, rest)
           | None => None
           end
  end.

Definition bracket (s : list ascii)
  : option (bool * list ascii * list ascii) :=
  let (neg, s1) :=
    match s with
    | c :: s' => if Ascii.eqb c "!"%char then (true, s') else (false, s)
    | [] => (false, s)
    end in
  match s1 with
  | c :: s2 =>
      if Ascii.eqb c "]"%char then
        match until_close s2 with
        | Some (stuff, rest) => Some (neg, c :: stuff, rest)
        | None => None
        end
      else
        match until_close s1 with
        | Some (stuff, rest) => Some (neg, stuff, rest)
        | None => None
        end
  | [] => None
  end.

(** The members of a set: [lo-hi] is a range, a hyphen in first or last
    position is itself. *)
Fixpoint ranges_of (fuel : nat) (stuff : list ascii) : list (ascii * ascii) :=
  match fuel with
  | O => []
  | S fuel' =>
      match stuff with
      | lo :: dash :: hi :: rest =>
          if Ascii.eqb dash "-"%char then (lo, hi) :: ranges_of fuel' rest
          else (lo, lo) :: ranges_of fuel' (dash :: hi :: rest)
      | c :: rest => (c, c) :: ranges_of fuel' rest
      | [] => []
      end
  end.

Fixpoint translate_aux (fuel : nat) (pat : list ascii) : list tok :=
  match fuel with
  | O => []
  | S fuel' =>
      match pat with
      | [] => []
      | c :: rest =>
          if Ascii.eqb c "*"%char then TStar :: translate_aux fuel' rest
          else if Ascii.eqb c "?"%char then TAny :: translate_aux fuel' rest
          else if Ascii.eqb c "["%char then
            match bracket rest with
            | Some (neg, stuff, rest') =>
                TSet neg (ranges_of (List.length stuff) stuff)
                  :: translate_aux fuel' rest'
            | None => TLit c :: translate_aux fuel' rest
            end
          else TLit c :: translate_aux fuel' rest
      end
  end.

Definition translate (pat : string) : list tok :=
  let l := list_ascii_of_string pat in
  translate_aux (List.length l) l.

Definition in_range (c : ascii) (r : ascii * ascii) : bool :=
  (Ascii.leb (fst r) c && Ascii.leb c (snd r))%bool.

Definition tok_accepts (t : tok) (c : ascii) : bool :=
  match t with
  | TStar | TAny => true
  | TSet neg rs => xorb neg (existsb (in_range c) rs)
  | TLit c' => Ascii.eqb c' c
  end.

(** Whole-string match of the translated pattern. *)
Fixpoint matches (toks : list tok) : list ascii -> bool :=
  match toks with
  | [] => fun s => match s with [] => true | _ :: _ => false end
  | TStar :: toks' =>
      fix star (s : list ascii) : bool :=
        matches toks' s ||
        match s with
        | [] => false
        | _ :: s' => star s'
        end
  | t :: toks' =>
      fun s =>
        match s with
        | [] => false
        | c :: s' => tok_accepts t c && matches toks' s'
        end
  end.

Definition fnmatch (name pat : string) : bool :=
  matches (translate pat) (list_ascii_of_string name).

End Fnmatch.

(** ** Compiled regular expressions *)

(** The program uses a compiled pattern only through the truth value of
    [r.search(s)]. *)
Record Pattern : Type := mkPattern { search : string -> bool }.

(** [re.compile(re.escape(text))]: an unanchored search for a literal. *)
Definition re_literal (text : string) : Pattern := mkPattern (contains text).

(** [re.compile(re.escape(text) + "$")]: a literal at the end of the
    string (no trailing newline in the names considered). *)
Fixpoint ends_with (text s : string) : bool :=
  (text =? s)%string ||
  match s with
  | EmptyString => false
  | String _ s' => ends_with text s'
  end.
Definition re_literal_end (text : string) : Pattern := mkPattern (ends_with text).

(** ** The selector *)

Definition nonempty {A : Type} (l : list A) : bool :=
  match l with [] => false | _ :: _ => true end.

(** Does the string form of the path match an exclude wildcard or an
    exclude regex?  The test of the first [if] of [should_process_path]. *)
Definition excluded (path : Path)
    (exclude_patterns : list string) (exclude_regexes : list Pattern) : bool :=
  existsb (fun p => Fnmatch.fnmatch (str path) p) exclude_patterns
  || existsb (fun r => search r (str path)) exclude_regexes.

Definition should_process_path (path : Path)
    (include_patterns : list string) (include_regexes : list Pattern)
    (exclude_patterns : list string) (exclude_regexes : list Pattern)
    (is_checking_dir : bool) : bool :=
  let path_str := str path in
  if existsb (fun p => Fnmatch.fnmatch path_str p) exclude_patterns
     || existsb (fun r => search r path_str) exclude_regexes
  then false
  else if is_checking_dir then
    let has_inclusion_patterns :=
      nonempty include_patterns || nonempty include_regexes in
    let matches_inclusion :=
      existsb (fun p => Fnmatch.fnmatch path_str p) include_patterns
      || existsb (fun r => search r path_str) include_regexes in
    negb has_inclusion_patterns || matches_inclusion || true
  else if nonempty include_patterns || nonempty include_regexes then
    existsb (fun p => Fnmatch.fnmatch path_str p) include_patterns
    || existsb (fun r => search r path_str) include_regexes
  else true.

(** ** [sorted(l, key=...)]

    A stable sort: an element is put in front of the first element that
    is not smaller, so elements with equal keys keep their order. *)
Section Sorting.
Context {A : Type}.
Variable le : A -> A -> bool.

Fixpoint insert (x : A) (l : list A) : list A :=
  match l with
  | [] => [x]
  | y :: l' => if le x y then x :: l else y :: insert x l'
  end.

Fixpoint sorted (l : list A) : list A :=
  match l with
  | [] => []
  | x :: l' => insert x (sorted l')
  end.
End Sorting.

(** ** The file system *)

(** What opening and reading a file as UTF-8 text does. *)
Inductive file_data : Type :=
  | Text (content : string)
      (* opens and decodes to [content] *)
  | Unopenable (msg : string)
      (* [open] raises [OSError] *)
  | UndecodableHead (msg : string)
      (* [UnicodeDecodeError] within the first [read(1024)] *)
  | UndecodableTail (msg : string).
      (* the first 1024 characters decode, the full [read()] raises *)

Set Warnings "-register-all".

(** A directory entry: a regular file, or a directory with what listing
    it gives (in listing order) when it can be listed.  The entries are
    those whose kind can be read, so that [is_dir] and [is_file] answer:
    symbolic links, and the entries of a directory that can be listed but
    not searched, are not represented. *)
Inductive entry : Type :=
  | File (fname : string)
  | Dir (dname : string) (listable : bool) (children : list entry).

Definition entry_name (e : entry) : string :=
  match e with
  | File f => f
  | Dir d _ _ => d
  end.

(** [item.is_dir()] *)
Definition is_dir (e : entry) : bool :=
  match e with
  | File _ => false
  | Dir _ _ _ => true
  end.

Definition permission_denied : exn := OSError "Permission denied".

(** A line of the tree with the path it is the line of. *)
Definition line : Type := (Path * string)%type.

(** [_generate_tree] applied to an item, waiting for its path, prefix and
    depth. *)
Definition descend : Type := Path -> string -> nat -> result (list line).

(** The key [(not p.is_dir(), p.name)] of the tree's listing order. *)
Definition tree_key_le (a b : entry) : bool :=
  match is_dir a, is_dir b with
  | true, false => true
  | false, true => false
  | _, _ => (entry_name a <=? entry_name b)%string
  end.

(** [file_path.open('r', encoding='utf-8').read()] *)
Definition read_text (data : file_data) : result string :=
  match data with
  | Text content => Ok content
  | Unopenable msg => Raise (OSError msg)
  | UndecodableHead msg | UndecodableTail msg => Raise (UnicodeDecodeError msg)
  end.

(** [str(e)] *)
Definition exn_str (e : exn) : string :=
  match e with
  | OSError msg | UnicodeDecodeError msg => msg
  | NotADirectoryError => "Not a directory"
  | ValueError => "not in the subpath"
  end.

Section Program.
Variables (include_patterns : list string) (include_regexes : list Pattern).
Variables (exclude_patterns : list string) (exclude_regexes : list Pattern).
Variable recursive : bool.

Let selected (p : Path) (is_checking_dir : bool) : bool :=
  should_process_path p include_patterns include_regexes
    exclude_patterns exclude_regexes is_checking_dir.

(** *** The tree renderer *)

(** The filter of [_generate_tree]: is the item kept in
    [visible_items]? *)
Definition is_visible (directory : Path) (depth : nat)
    (it : entry * descend) : bool :=
  let item := fst it in
  if negb recursive && is_dir item && Nat.ltb 0 depth then false
  else selected (joinpath directory (entry_name item)) (is_dir item).

(** The second loop of [_generate_tree], over [visible_items]; the last
    item is the one nothing follows. *)
Fixpoint render_items (directory : Path) (prefix : string) (depth : nat)
    (visible_items : list (entry * descend)) : result (list line) :=
  match visible_items with
  | [] => Ok []
  | (item, sub) :: rest =>
      let is_last := negb (nonempty rest) in
      let connector := (if is_last then "└── " else "├── ")%string in
      let next_prefix := (if is_last then "    " else "│   ")%string in
      let item_path := joinpath directory (entry_name item) in
      below <- (if is_dir item && (recursive || Nat.eqb depth 0)
                then sub item_path (prefix ++ next_prefix)%string (S depth)
                else Ok []) ;;
      more <- render_items directory prefix depth rest ;;
      Ok ((item_path, (prefix ++ connector ++ entry_name item)%string)
            :: below ++ more)
  end.

(** [_generate_tree(directory, prefix, depth)], where [node] is what
    the file system holds at [directory].  Each child is paired with
    the recursive call on it before the listing is sorted, so that the
    recursion follows the structure of the file system; the call is
    made only for the items the loop descends into. *)
Fixpoint _generate_tree (node : entry) (directory : Path)
    (prefix : string) (depth : nat) {struct node} : result (list line) :=
  match node with
  | File _ => Raise NotADirectoryError
  | Dir _ false _ => Raise permission_denied
  | Dir _ true children =>
      let items :=
        sorted (fun a b => tree_key_le (fst a) (fst b))
               (map (fun c => (c, _generate_tree c)) children) in
      render_items directory prefix depth
        (filter (is_visible directory depth) items)
  end.

(** The list [result] of [generate_tree]. *)
Definition generate_tree_lines (root_dir : Path) (root : entry)
  : result (list line) :=
  below <- _generate_tree root root_dir EmptyString 0 ;;
  Ok ((root_dir, name root_dir) :: below).

Definition generate_tree (root_dir : Path) (root : entry) : result string :=
  lines <- generate_tree_lines root_dir root ;;
  Ok (join newline (map snd lines)).

(** *** The walker *)

(** The body of both file loops of [collect_files] for one entry of
    the listing of [top]. *)
Definition collect_file (directory top : Path) (item : entry)
  : result (list (Path * Path)) :=
  match item with
  | File f =>
      let file_path := joinpath top f in
      if selected file_path false then
        relative_path <- relative_to file_path directory ;;
        Ok [(file_path, relative_path)]
      else Ok []
  | Dir _ _ _ => Ok []
  end.

(** The loop over [os.walk(directory)] at [top]: [os.walk] is top-down,
    does not report a directory it cannot list (its [onerror] is
    [None]) and visits the directories left in [dirs]. *)
Fixpoint os_walk (directory top : Path) (node : entry) {struct node}
  : result (list (Path * Path)) :=
  match node with
  | File _ => Ok []
  | Dir _ false _ => Ok []
  | Dir _ true children =>
      here <- concat_mapM (collect_file directory top) children ;;
      below <- concat_mapM
                 (fun c =>
                    match c with
                    | Dir d _ _ =>
                        if selected (joinpath top d) true
                        then os_walk directory (joinpath top d) c
                        else Ok []
                    | File _ => Ok []
                    end) children ;;
      Ok (here ++ below)
  end.

(** The loop over [directory.iterdir()] of the non-recursive branch. *)
Definition iterdir_files (directory : Path) (node : entry)
  : result (list (Path * Path)) :=
  match node with
  | File _ => Raise NotADirectoryError
  | Dir _ false _ => Raise permission_denied
  | Dir _ true children => concat_mapM (collect_file directory directory) children
  end.

Definition relative_key_le (x y : Path * Path) : bool :=
  (str (snd x) <=? str (snd y))%string.

Definition collect_files (directory : Path) (root : entry)
  : result (list (Path * Path)) :=
  found <- (if recursive then os_walk directory directory root
            else iterdir_files directory root) ;;
  Ok (sorted relative_key_le found).

(** *** The document assembler *)

Variable file_at : Path -> file_data.

(** The file is opened and its first 1024 characters are read; only a
    decoding error is caught. *)
Definition is_binary_file (file_path : Path) : result bool :=
  match file_at file_path with
  | Text _ => Ok false
  | Unopenable msg => Raise (OSError msg)
  | UndecodableHead _ => Ok true
  | UndecodableTail _ => Ok false
  end.

Definition backticks : string := "```".

(** One iteration of the loop of [create_markdown]: what it writes. *)
Definition write_file_block (record : Path * Path) : result string :=
  let (file_path, rel_path) := record in
  let file_ext := suffix_lstrip file_path in
  binary <- is_binary_file file_path ;;
  let body :=
    if binary then "/* Binary file not shown */"%string
    else match read_text (file_at file_path) with
         | Ok content => content
         | Raise e => ("/* Error reading file: " ++ exn_str e ++ " */")%string
         end in
  Ok ("`" ++ str rel_path ++ "`" ++ newline
      ++ backticks ++ file_ext ++ newline
      ++ body
      ++ newline ++ backticks ++ newline ++ newline)%string.

Fixpoint write_file_blocks (files : list (Path * Path)) : result (list string) :=
  match files with
  | [] => Ok []
  | record :: files' =>
      block <- write_file_block record ;;
      blocks <- write_file_blocks files' ;;
      Ok (block :: blocks)
  end.

Definition document_head (tree : string) : string :=
  ("# Directory Structure" ++ newline ++ newline
   ++ backticks ++ newline ++ tree ++ newline ++ backticks ++ newline ++ newline
   ++ "# File Contents" ++ newline ++ newline)%string.

(** What [create_markdown] writes to the output file when it runs to
    its end, or the exception that stops it.  Making the output
    directory, opening the output file and encoding what is written are
    taken to succeed. *)
Definition create_markdown (input_dir : Path) (root : entry) : result string :=
  tree <- generate_tree input_dir root ;;
  files_to_process <- collect_files input_dir root ;;
  blocks <- write_file_blocks files_to_process ;;
  Ok (document_head tree ++ String.concat EmptyString blocks)%string.

End Program.

(** ** Shapes of the results *)

(** What a record of the walk looks like: the walked path is the root
    extended by the components of the relative path, and the selector
    accepted the walked path as a file. *)
Definition walked_record (inc : list string) (incr : list Pattern)
    (exc : list string) (excr : list Pattern) (directory : Path)
    (record : Path * Path) : Prop :=
  exists rel, rel <> []
              /\ fst record = extend directory rel
              /\ snd record = mkPath false rel
              /\ should_process_path (fst record) inc incr exc excr false = true.

(** What a line below [directory] looks like: the line of a path
    strictly under it that the selector accepted in one of its modes. *)
Definition selected_below (inc : list string) (incr : list Pattern)
    (exc : list string) (excr : list Pattern) (directory p : Path) : Prop :=
  exists rel b, rel <> []
                /\ p = extend directory rel
                /\ should_process_path p inc incr exc excr b = true.

(** The files the recursive walk gets to from [top]: a selected file of
    the listing, or what it gets to through a selected subdirectory that
    can be listed.  The list is the path of the file relative to [top]. *)
Inductive reaches (inc : list string) (incr : list Pattern)
    (exc : list string) (excr : list Pattern)
  : Path -> entry -> list string -> Prop :=
  | reaches_file top d cs f :
      In (File f) cs ->
      should_process_path (joinpath top f) inc incr exc excr false = true ->
      reaches inc incr exc excr top (Dir d true cs) [f]
  | reaches_dir top d cs d' l' cs' rel :
      In (Dir d' l' cs') cs ->
      should_process_path (joinpath top d') inc incr exc excr true = true ->
      reaches inc incr exc excr (joinpath top d') (Dir d' l' cs') rel ->
      reaches inc incr exc excr top (Dir d true cs) (d' :: rel).

(** The entries the tree shows under [top] when it descends everywhere:
    a selected entry of the listing, or what is shown under a selected
    subdirectory. *)
Inductive shows (inc : list string) (incr : list Pattern)
    (exc : list string) (excr : list Pattern)
  : Path -> entry -> list string -> Prop :=
  | shows_child top d cs c :
      In c cs ->
      should_process_path (joinpath top (entry_name c))
        inc incr exc excr (is_dir c) = true ->
      shows inc incr exc excr top (Dir d true cs) [entry_name c]
  | shows_below top d cs d' l' cs' rel :
      In (Dir d' l' cs') cs ->
      should_process_path (joinpath top d') inc incr exc excr true = true ->
      shows inc incr exc excr (joinpath top d') (Dir d' l' cs') rel ->
      shows inc incr exc excr top (Dir d true cs) (d' :: rel).

(** The indentation units of a line, put together. *)
Definition indentation (units : list string) : string :=
  fold_right String.append EmptyString units.

(** Is the character one that [fnmatch] gives a meaning to? *)
Definition is_wildcard_char (c : ascii) : bool :=
  Ascii.eqb c "*"%char || Ascii.eqb c "?"%char || Ascii.eqb c "["%char.

(** A pattern without [*], [?] and [[]. *)
Definition plain_pattern (pat : string) : bool :=
  forallb (fun c => negb (is_wildcard_char c)) (list_ascii_of_string pat).

(** Does the string hold a dot? *)
Fixpoint has_dot (s : string) : bool :=
  match s with
  | EmptyString => false
  | String c s' => Ascii.eqb c "."%char || has_dot s'
  end.

(** The order [tree_key_le] decides: directories before files, names
    ascending within each kind. *)
Definition listed_before (a b : entry) : Prop :=
  (is_dir a = true /\ is_dir b = false)
  \/ (is_dir a = is_dir b /\ (entry_name a <=? entry_name b)%string = true).

(** ** Sample file systems *)

Definition proj : Path := mkPath true ["proj"].

(** [/proj] holds [x.txt] and [nested/y.txt]. *)
Definition fs_nested : entry :=
  Dir "proj" true [File "x.txt"; Dir "nested" true [File "y.txt"]].

(** [/proj] holds [a.txt] and a directory [locked] that cannot be listed. *)
Definition fs_locked : entry :=
  Dir "proj" true [File "a.txt"; Dir "locked" false [File "b.txt"]].

(** [/proj] holds [a.py] only. *)
Definition fs_single : entry := Dir "proj" true [File "a.py"].

(** [/proj] holds [main.py] and [.git/config]. *)
Definition fs_git : entry :=
  Dir "proj" true [File "main.py"; Dir ".git" true [File "config"]].

(** * Properties *)

(** ** The selector *)

Lemma should_process_path_excluded path inc incr exc excr b :
  excluded path exc excr = true ->
  should_process_path path inc incr exc excr b = false.
Proof.
  unfold excluded, should_process_path. intros H. cbv zeta. now rewrite H.
Qed.

Lemma should_process_path_true_not_excluded path inc incr exc excr b :
  should_process_path path inc incr exc excr b = true ->
  excluded path exc excr = false.
Proof.
  intros H. destruct (excluded path exc excr) eqn:E; [|reflexivity].
  rewrite (should_process_path_excluded _ inc incr _ _ b E) in H. discriminate.
Qed.

(** C2: a directory that matches no exclude pattern passes the
    directory-scan check whatever the include patterns are. *)
Theorem directory_scan_only_excludes path inc incr exc excr :
  excluded path exc excr = false ->
  should_process_path path inc incr exc excr true = true.
Proof.
  unfold excluded, should_process_path. intros H. cbv zeta. rewrite H.
  now rewrite orb_true_r.
Qed.

Lemma directory_scan_only_excludes_witness :
  excluded (mkPath true ["proj"; "docs"]) ["*.git*"] [re_literal "cache"] = false
  /\ should_process_path (mkPath true ["proj"; "docs"])
       ["*.py"] [re_literal_end ".md"] ["*.git*"] [re_literal "cache"] true = true.
Proof.
  split; [reflexivity|].
  apply (directory_scan_only_excludes (mkPath true ["proj"; "docs"])
           ["*.py"] [re_literal_end ".md"] ["*.git*"] [re_literal "cache"]).
  reflexivity.
Defined.

(** C3: a file that matches no exclude pattern passes the file check
    exactly when it matches an include wildcard or an include regex, if
    there is any include pattern; it passes when there is none. *)
Theorem file_check_follows_includes path inc incr exc excr :
  excluded path exc excr = false ->
  (nonempty inc || nonempty incr = true ->
   (should_process_path path inc incr exc excr false = true
    <-> (existsb (fun p => Fnmatch.fnmatch (str path) p) inc = true
         \/ existsb (fun r => search r (str path)) incr = true)))
  /\ (inc = [] -> incr = [] ->
      should_process_path path inc incr exc excr false = true).
Proof.
  unfold excluded, should_process_path. intros H. cbv zeta. rewrite H. split.
  - intros Hne. rewrite Hne. now rewrite orb_true_iff.
  - intros -> ->. reflexivity.
Qed.

Lemma file_check_follows_includes_witness :
  excluded (mkPath true ["proj"; "main.py"]) ["*.pyc"] [] = false
  /\ should_process_path (mkPath true ["proj"; "main.py"]) ["*.py"] [] ["*.pyc"] [] false = true
  /\ should_process_path (mkPath true ["proj"; "notes.txt"]) ["*.py"] [] ["*.pyc"] [] false = false
  /\ should_process_path (mkPath true ["proj"; "notes.txt"]) [] [] ["*.pyc"] [] false = true.
Proof.
  split; [reflexivity|]. split; [|split].
  - apply (proj1 (file_check_follows_includes (mkPath true ["proj"; "main.py"])
                    ["*.py"] [] ["*.pyc"] [] eq_refl) eq_refl).
    left. reflexivity.
  - reflexivity.
  - apply (proj2 (file_check_follows_includes (mkPath true ["proj"; "notes.txt"])
                    [] [] ["*.pyc"] [] eq_refl)); reflexivity.
Defined.

(** ** Wildcards *)

Lemma star_matches_suffix toks (s t : list ascii) :
  Fnmatch.matches toks t = true ->
  Fnmatch.matches (Fnmatch.TStar :: toks) (s ++ t) = true.
Proof.
  intros H. induction s as [|c s IH]; simpl.
  - destruct t; simpl in *; rewrite H; reflexivity.
  - simpl in IH. rewrite IH. apply orb_true_r.
Qed.

Lemma list_ascii_of_string_app (s t : string) :
  list_ascii_of_string (s ++ t) = list_ascii_of_string s ++ list_ascii_of_string t.
Proof.
  induction s as [|c s IH]; simpl; [reflexivity|]. now rewrite IH.
Qed.

(** The claim of C4 fails: [*.py] does match [src/foo.py]. *)
Lemma bare_star_matches_nested_file :
  Fnmatch.fnmatch "src/foo.py" "*.py" = true.
Proof. reflexivity. Qed.

(** C4, amended: in a wildcard [*] stands for any run of characters,
    path separators included; [*.py] matches every string that ends in
    [.py], so both [*.py] and [src/*.py] match [src/foo.py]. *)
Theorem star_crosses_separators :
  (forall stem : string, Fnmatch.fnmatch (stem ++ ".py") "*.py" = true)
  /\ Fnmatch.fnmatch "src/foo.py" "*.py" = true
  /\ Fnmatch.fnmatch "src/foo.py" "src/*.py" = true.
Proof.
  split; [|split; reflexivity].
  intros stem. unfold Fnmatch.fnmatch.
  rewrite list_ascii_of_string_app.
  change (Fnmatch.translate "*.py")
    with [Fnmatch.TStar; Fnmatch.TLit "."%char; Fnmatch.TLit "p"%char;
          Fnmatch.TLit "y"%char].
  apply star_matches_suffix. reflexivity.
Qed.

(** ** Sorting *)

Section SortingFacts.
Context {A : Type}.
Variable le : A -> A -> bool.

Lemma insert_perm x l : Permutation (insert le x l) (x :: l).
Proof.
  induction l as [|y l IH]; simpl; [reflexivity|].
  destruct (le x y); [reflexivity|].
  rewrite IH. apply perm_swap.
Qed.

Lemma sorted_perm l : Permutation (sorted le l) l.
Proof.
  induction l as [|x l IH]; simpl; [reflexivity|].
  rewrite insert_perm. now constructor.
Qed.

Lemma sorted_In x l : In x (sorted le l) <-> In x l.
Proof.
  split; apply Permutation_in; [|symmetry]; apply sorted_perm.
Qed.

Hypothesis le_total : forall a b, le a b = true \/ le b a = true.
Hypothesis le_trans : forall a b c, le a b = true -> le b c = true -> le a c = true.

Local Abbreviation R := (fun a b : A => le a b = true).

Lemma insert_sorted x l : StronglySorted R l -> StronglySorted R (insert le x l).
Proof.
  induction 1 as [|y l Hl IH Hy]; simpl.
  - repeat constructor.
  - destruct (le x y) eqn:E.
    + constructor; [now constructor|].
      constructor; [exact E|].
      eapply Forall_impl; [|exact Hy]. intros z Hz. now apply (le_trans x y z).
    + constructor; [exact IH|].
      eapply Permutation_Forall; [symmetry; apply insert_perm|].
      constructor; [|exact Hy].
      destruct (le_total x y) as [H|H]; [congruence|exact H].
Qed.

Lemma sorted_sorted l : StronglySorted R (sorted le l).
Proof.
  induction l as [|x l IH]; simpl; [constructor|]. now apply insert_sorted.
Qed.
End SortingFacts.

Lemma ascii_compare_refl c : Ascii.compare c c = Eq.
Proof. unfold Ascii.compare. apply N.compare_refl. Qed.

Lemma string_compare_trans_le (a b c : string) :
  String.compare a b <> Gt -> String.compare b c <> Gt -> String.compare a c <> Gt.
Proof.
  revert b c. induction a as [|x a IH]; intros [|y b] [|z c]; simpl;
    try congruence.
  destruct (Ascii.compare x y) eqn:E1; try congruence;
    destruct (Ascii.compare y z) eqn:E2; try congruence; intros H1 H2.
  - apply Ascii.compare_eq_iff in E1, E2. subst. rewrite ascii_compare_refl.
    now apply (IH b c).
  - apply Ascii.compare_eq_iff in E1. subst. rewrite E2. congruence.
  - apply Ascii.compare_eq_iff in E2. subst. rewrite E1. congruence.
  - unfold Ascii.compare in *. rewrite N.compare_lt_iff in E1, E2.
    assert (E3 : (N_of_ascii x ?= N_of_ascii z)%N = Lt)
      by (rewrite N.compare_lt_iff; lia).
    rewrite E3. congruence.
Qed.

Lemma string_leb_trans (a b c : string) :
  (a <=? b)%string = true -> (b <=? c)%string = true -> (a <=? c)%string = true.
Proof.
  unfold String.leb. intros H1 H2.
  assert (H : String.compare a c <> Gt).
  { apply (string_compare_trans_le a b c).
    - destruct (String.compare a b); congruence.
    - destruct (String.compare b c); congruence. }
  destruct (String.compare a c); congruence.
Qed.

(** ** Fallible computations *)

Lemma bind_ok {A B : Type} (r : result A) (k : A -> result B) (b : B) :
  bind r k = Ok b -> exists a, r = Ok a /\ k a = Ok b.
Proof. destruct r as [a|e]; simpl; [eauto|discriminate]. Qed.

Ltac bind_inv H :=
  let a := fresh "a" in
  let Ha := fresh "H" a in
  apply bind_ok in H; destruct H as (a & Ha & H).

Lemma write_file_blocks_each file_at files blocks :
  write_file_blocks file_at files = Ok blocks ->
  Forall2 (fun record block => write_file_block file_at record = Ok block)
          files blocks.
Proof.
  revert blocks. induction files as [|r files IH]; simpl; intros blocks H.
  - injection H as <-. constructor.
  - bind_inv H. bind_inv H. injection H as <-. constructor; auto.
Qed.

(** ** Order of the collected files *)

(** C9: the list [collect_files] returns is sorted in ascending order of
    the string form of the root-relative path, and [create_markdown]
    writes one block per record of that list, in the order of the list. *)
Theorem collect_files_sorted inc incr exc excr recursive directory root :
  (forall files,
      collect_files inc incr exc excr recursive directory root = Ok files ->
      StronglySorted
        (fun x y => (str (snd x) <=? str (snd y))%string = true) files)
  /\ (forall file_at doc,
         create_markdown inc incr exc excr recursive file_at directory root = Ok doc ->
         exists tree files blocks,
           generate_tree inc incr exc excr recursive directory root = Ok tree
           /\ collect_files inc incr exc excr recursive directory root = Ok files
           /\ Forall2 (fun record block => write_file_block file_at record = Ok block)
                      files blocks
           /\ doc = (document_head tree ++ String.concat EmptyString blocks)%string).
Proof.
  split.
  - intros files H. unfold collect_files in H. bind_inv H. injection H as <-.
    apply (sorted_sorted relative_key_le).
    + intros x y. apply String.leb_total.
    + intros x y z. apply string_leb_trans.
  - intros file_at doc H. unfold create_markdown in H.
    bind_inv H. bind_inv H. bind_inv H. injection H as <-.
    eauto 8 using write_file_blocks_each.
Qed.

Lemma collect_files_sorted_witness :
  collect_files [] [] [] [] true proj fs_nested
  = Ok [(mkPath true ["proj"; "nested"; "y.txt"], mkPath false ["nested"; "y.txt"]);
        (mkPath true ["proj"; "x.txt"], mkPath false ["x.txt"])]
  /\ StronglySorted
       (fun x y => (str (snd x) <=? str (snd y))%string = true)
       [(mkPath true ["proj"; "nested"; "y.txt"], mkPath false ["nested"; "y.txt"]);
        (mkPath true ["proj"; "x.txt"], mkPath false ["x.txt"])].
Proof.
  split; [reflexivity|].
  apply (proj1 (collect_files_sorted [] [] [] [] true proj fs_nested)).
  reflexivity.
Defined.

(** ** Paths *)

Lemma joinpath_extend p n : joinpath p n = extend p [n].
Proof. reflexivity. Qed.

Lemma joinpath_of_extend p rel n : joinpath (extend p rel) n = extend p (rel ++ [n]).
Proof. unfold joinpath, extend. simpl. now rewrite app_assoc. Qed.

Lemma extend_extend p rel rel' : extend (extend p rel) rel' = extend p (rel ++ rel').
Proof. unfold extend. simpl. now rewrite app_assoc. Qed.

Lemma extend_nil p : extend p [] = p.
Proof. destruct p. unfold extend. simpl. now rewrite app_nil_r. Qed.

Lemma strip_prefix_app base rel : strip_prefix base (base ++ rel) = Some rel.
Proof.
  induction base as [|b base IH]; simpl; [reflexivity|].
  now rewrite String.eqb_refl.
Qed.

Lemma relative_to_extend p rel : relative_to (extend p rel) p = Ok (mkPath false rel).
Proof.
  unfold relative_to, extend. simpl.
  rewrite Bool.eqb_reflx, strip_prefix_app. reflexivity.
Qed.

Lemma append_assoc (a b c : string) : ((a ++ b) ++ c = a ++ (b ++ c))%string.
Proof. induction a as [|x a IH]; simpl; [reflexivity|]. now rewrite IH. Qed.

Lemma join_app sep (l1 l2 : list string) :
  l1 <> [] -> l2 <> [] ->
  join sep (l1 ++ l2) = (join sep l1 ++ sep ++ join sep l2)%string.
Proof.
  intros H1 H2. induction l1 as [|a l1 IH]; [congruence|].
  destruct l1 as [|b l1].
  - simpl. destruct l2; [congruence|reflexivity].
  - change (join sep ((a :: b :: l1) ++ l2))
      with (a ++ sep ++ join sep ((b :: l1) ++ l2))%string.
    rewrite IH by discriminate.
    change (join sep (a :: b :: l1)) with (a ++ sep ++ join sep (b :: l1))%string.
    now rewrite !append_assoc.
Qed.

(** The string the selector sees for a walked path: the string of the
    root, a separator and the string of the root-relative path. *)
Lemma str_extend p rel :
  parts p <> [] -> rel <> [] ->
  str (extend p rel) = (str p ++ "/" ++ str (mkPath false rel))%string.
Proof.
  intros Hp Hrel. destruct p as [a ps]. simpl in Hp.
  destruct rel as [|r rel]; [congruence|].
  destruct ps as [|q ps]; [congruence|].
  assert (E : join "/" ((q :: ps) ++ r :: rel)
              = (join "/" (q :: ps) ++ "/" ++ join "/" (r :: rel))%string)
    by (apply join_app; discriminate).
  destruct a.
  - change (str (extend (mkPath true (q :: ps)) (r :: rel)))
      with ("/" ++ join "/" ((q :: ps) ++ r :: rel))%string.
    rewrite E. reflexivity.
  - change (str (extend (mkPath false (q :: ps)) (r :: rel)))
      with (join "/" ((q :: ps) ++ r :: rel)).
    rewrite E. reflexivity.
Qed.

(** ** Induction on the file system *)

Lemma entry_ind' (P : entry -> Prop) :
  (forall f, P (File f)) ->
  (forall d l cs, Forall P cs -> P (Dir d l cs)) ->
  forall e, P e.
Proof.
  intros HF HD.
  fix rec 1. intros [f|d l cs].
  - apply HF.
  - apply HD. induction cs as [|c cs IH]; constructor; [apply rec|exact IH].
Qed.

(** ** Loops that may raise *)

Section ConcatMapFacts.
Context {A B : Type}.
Variable f : A -> result (list B).

Lemma concat_mapM_In l out x :
  concat_mapM f l = Ok out -> In x out ->
  exists a bs, In a l /\ f a = Ok bs /\ In x bs.
Proof.
  revert out. induction l as [|a l IH]; simpl; intros out H Hx.
  - injection H as <-. contradiction.
  - bind_inv H. bind_inv H. injection H as <-.
    apply in_app_or in Hx. destruct Hx as [Hx|Hx]; [eauto 6|].
    destruct (IH _ Ha1 Hx) as (a' & bs & ? & ? & ?). eauto 6.
Qed.


Lemma concat_mapM_total l :
  Forall (fun a => exists bs, f a = Ok bs) l -> exists out, concat_mapM f l = Ok out.
Proof.
  induction 1 as [|a l (bs & Hbs) _ (out & Hout)]; simpl; [eauto|].
  rewrite Hbs, Hout. simpl. eauto.
Qed.
End ConcatMapFacts.

(** ** The walker *)

Section WalkerFacts.
Variables (inc : list string) (incr : list Pattern).
Variables (exc : list string) (excr : list Pattern).
Variable directory : Path.

Local Abbreviation walked_record := (walked_record inc incr exc excr directory).

Lemma collect_file_total rel item :
  exists bs, collect_file inc incr exc excr directory (extend directory rel) item = Ok bs.
Proof.
  destruct item as [f|d l cs]; simpl; [|eauto].
  destruct (should_process_path _ _ _ _ _ _); [|eauto].
  rewrite joinpath_of_extend, relative_to_extend. simpl. eauto.
Qed.

Lemma collect_file_selected rel f :
  should_process_path (joinpath (extend directory rel) f) inc incr exc excr false = true ->
  collect_file inc incr exc excr directory (extend directory rel) (File f)
  = Ok [(joinpath (extend directory rel) f, mkPath false (rel ++ [f]))].
Proof.
  intros H. simpl. rewrite H.
  rewrite joinpath_of_extend, relative_to_extend. reflexivity.
Qed.

Lemma collect_file_records rel item bs :
  collect_file inc incr exc excr directory (extend directory rel) item = Ok bs ->
  Forall walked_record bs.
Proof.
  destruct item as [f|d l cs]; simpl.
  - destruct (should_process_path _ _ _ _ _ _) eqn:E.
    + rewrite joinpath_of_extend in *. rewrite relative_to_extend. simpl.
      intros H. injection H as <-. repeat constructor.
      exists (rel ++ [f]). simpl. repeat split; auto.
      intros Hnil. apply app_eq_nil in Hnil. destruct Hnil; discriminate.
    + intros H. injection H as <-. constructor.
  - intros H. injection H as <-. constructor.
Qed.

Lemma os_walk_total node :
  forall rel, exists found,
    os_walk inc incr exc excr directory (extend directory rel) node = Ok found.
Proof.
  induction node as [f|d l cs IH] using entry_ind'; intros rel; simpl; [eauto|].
  destruct l; [|eauto].
  destruct (concat_mapM_total
              (collect_file inc incr exc excr directory (extend directory rel)) cs)
    as (here & Hhere).
  { apply Forall_forall. intros c _. apply collect_file_total. }
  rewrite Hhere. simpl.
  match goal with
  | |- context [concat_mapM ?g cs] =>
      destruct (concat_mapM_total g cs) as (below & Hbelow)
  end.
  { eapply Forall_impl; [|exact IH]. intros c Hc. simpl in Hc.
    destruct c as [f|d' l' cs']; [eauto|].
    destruct (should_process_path _ _ _ _ _ _); [|eauto].
    rewrite joinpath_of_extend. apply Hc. }
  rewrite Hbelow. simpl. eauto.
Qed.

Lemma os_walk_records node :
  forall rel found,
    os_walk inc incr exc excr directory (extend directory rel) node = Ok found ->
    Forall walked_record found.
Proof.
  induction node as [f|d l cs IH] using entry_ind'; intros rel found; simpl.
  - intros H. injection H as <-. constructor.
  - destruct l; [|intros H; injection H as <-; constructor].
    intros H. bind_inv H. bind_inv H. injection H as <-.
    apply Forall_app. split; apply Forall_forall; intros x Hx.
    + destruct (concat_mapM_In _ _ _ _ Ha Hx) as (c & bs & _ & Hc & Hin).
      apply collect_file_records in Hc.
      rewrite Forall_forall in Hc. auto.
    + destruct (concat_mapM_In _ _ _ _ Ha0 Hx) as (c & bs & Hcs & Hc & Hin).
      rewrite Forall_forall in IH. specialize (IH c Hcs).
      destruct c as [f|d' l' cs']; [injection Hc as <-; contradiction|].
      destruct (should_process_path _ _ _ _ _ _);
        [|injection Hc as <-; contradiction].
      rewrite joinpath_of_extend in Hc. apply IH in Hc.
      rewrite Forall_forall in Hc. auto.
Qed.

Lemma iterdir_files_records node found :
  iterdir_files inc incr exc excr directory node = Ok found ->
  Forall walked_record found.
Proof.
  destruct node as [f|d [|] cs]; simpl; try discriminate.
  intros H. apply Forall_forall. intros x Hx.
  destruct (concat_mapM_In _ _ _ _ H Hx) as (c & bs & _ & Hc & Hin).
  rewrite <- (extend_nil directory) in Hc at 2.
  apply collect_file_records in Hc. rewrite Forall_forall in Hc. auto.
Qed.

Lemma collect_files_records recursive root files :
  collect_files inc incr exc excr recursive directory root = Ok files ->
  Forall walked_record files.
Proof.
  unfold collect_files. intros H. bind_inv H. injection H as <-.
  eapply Permutation_Forall; [symmetry; apply sorted_perm|].
  destruct recursive.
  - rewrite <- (extend_nil directory) in Ha at 2. eapply os_walk_records; eauto.
  - eapply iterdir_files_records; eauto.
Qed.

Lemma collect_files_total_recursive root :
  exists files, collect_files inc incr exc excr true directory root = Ok files.
Proof.
  unfold collect_files.
  destruct (os_walk_total root []) as (found & H).
  rewrite extend_nil in H. rewrite H. simpl. eauto.
Qed.

End WalkerFacts.

(** ** The tree renderer *)

Section TreeFacts.
Variables (inc : list string) (incr : list Pattern).
Variables (exc : list string) (excr : list Pattern).
Variable recursive : bool.

Local Abbreviation render := (render_items recursive).
Local Abbreviation tree := (_generate_tree inc incr exc excr recursive).
Local Abbreviation visible := (is_visible inc incr exc excr recursive).

(** The listing of a directory, sorted: its children, each with the
    recursive call on it. *)
Lemma tree_items_In (g : entry -> descend) cs it :
  In it (sorted (fun a b => tree_key_le (fst a) (fst b))
                (map (fun c => (c, g c)) cs))
  <-> exists c, In c cs /\ it = (c, g c).
Proof.
  rewrite sorted_In, in_map_iff. split; intros (c & H1 & H2); eauto.
Qed.

(** A line of the loop is the line of a visible item or a line of the
    call on a visible directory. *)
Lemma render_items_lines directory prefix depth vis ls l :
  render directory prefix depth vis = Ok ls -> In l ls ->
  exists item sub,
    In (item, sub) vis
    /\ (fst l = joinpath directory (entry_name item)
        \/ (is_dir item = true
            /\ (recursive || Nat.eqb depth 0) = true
            /\ exists pre below,
                sub (joinpath directory (entry_name item)) pre (S depth) = Ok below
                /\ In l below)).
Proof.
  revert ls. induction vis as [|[item sub] vis IH]; simpl; intros ls H Hl.
  - injection H as <-. contradiction.
  - bind_inv H. bind_inv H. injection H as <-.
    destruct Hl as [<-|Hl]; [exists item, sub; simpl; auto|].
    apply in_app_or in Hl. destruct Hl as [Hl|Hl].
    + exists item, sub. split; [now left|]. right.
      destruct (is_dir item && (recursive || Nat.eqb depth 0)) eqn:E.
      * apply andb_true_iff in E. destruct E. eauto 8.
      * injection Ha as <-. contradiction.
    + destruct (IH _ Ha0 Hl) as (item' & sub' & Hin & Hcase).
      exists item', sub'. split; [now right|exact Hcase].
Qed.

Lemma render_items_has_item directory prefix depth vis ls item sub :
  render directory prefix depth vis = Ok ls -> In (item, sub) vis ->
  In (joinpath directory (entry_name item)) (map fst ls).
Proof.
  revert ls. induction vis as [|[item' sub'] vis IH]; simpl; intros ls H Hin;
    [contradiction|].
  bind_inv H. bind_inv H. injection H as <-.
  destruct Hin as [Heq|Hin].
  - injection Heq as -> ->. now left.
  - right. rewrite map_app. apply in_or_app. right. eauto.
Qed.

Lemma render_items_has_below directory prefix depth vis ls item sub :
  render directory prefix depth vis = Ok ls -> In (item, sub) vis ->
  is_dir item = true -> (recursive || Nat.eqb depth 0) = true ->
  exists pre below,
    sub (joinpath directory (entry_name item)) pre (S depth) = Ok below
    /\ incl below ls.
Proof.
  revert ls. induction vis as [|[item' sub'] vis IH]; simpl;
    intros ls H Hin Hdir Hrec; [contradiction|].
  bind_inv H. bind_inv H. injection H as <-.
  destruct Hin as [Heq|Hin].
  - injection Heq as -> ->. rewrite Hdir, Hrec in Ha. simpl in Ha.
    eexists _, _. split; [exact Ha|].
    apply incl_tl, incl_appl, incl_refl.
  - destruct (IH _ Ha0 Hin Hdir Hrec) as (pre & below & H1 & H2).
    eexists _, _. split; [exact H1|].
    apply incl_tl, incl_appr. exact H2.
Qed.

(** Every line below a directory is the line of a path strictly under
    it that the selector accepted, as a directory or as a file. *)
Lemma generate_tree_lines_below node :
  forall directory prefix depth ls,
    tree node directory prefix depth = Ok ls ->
    Forall (selected_below inc incr exc excr directory) (map fst ls).
Proof.
  induction node as [f|d l cs IH] using entry_ind';
    intros directory prefix depth ls; simpl; [discriminate|].
  destruct l; [|discriminate].
  intros H. apply Forall_forall. intros p Hp.
  apply in_map_iff in Hp. destruct Hp as (ln & <- & Hln).
  destruct (render_items_lines _ _ _ _ _ _ H Hln) as (item & sub & Hin & Hcase).
  apply filter_In in Hin. destruct Hin as [Hin Hvis].
  apply tree_items_In in Hin. destruct Hin as (c & Hc & Heq).
  injection Heq as -> ->.
  unfold is_visible in Hvis. simpl in Hvis.
  destruct (negb recursive && is_dir c && Nat.ltb 0 depth); [discriminate|].
  destruct Hcase as [Hline|(Hdir & _ & pre & below & Hbelow & Hmem)].
  - exists [entry_name c], (is_dir c). rewrite Hline.
    repeat split; [discriminate|exact Hvis].
  - rewrite Forall_forall in IH. apply (IH c Hc) in Hbelow.
    rewrite Forall_forall in Hbelow.
    destruct (Hbelow (fst ln) (in_map fst _ _ Hmem)) as (rel & b & Hne & Hpath & Hsel).
    exists (entry_name c :: rel), b. repeat split; [discriminate| |exact Hsel].
    rewrite Hpath, joinpath_extend, extend_extend. reflexivity.
Qed.

(** A selected child of a listable directory has its line, at depth 0
    whatever the mode. *)
Lemma generate_tree_child dname cs directory prefix ls c :
  tree (Dir dname true cs) directory prefix 0 = Ok ls ->
  In c cs ->
  should_process_path (joinpath directory (entry_name c))
    inc incr exc excr (is_dir c) = true ->
  In (joinpath directory (entry_name c)) (map fst ls).
Proof.
  simpl. intros H Hc Hsel.
  eapply render_items_has_item; [exact H|].
  apply filter_In. split.
  - apply tree_items_In. eauto.
  - unfold is_visible. simpl. rewrite andb_false_r. exact Hsel.
Qed.
End TreeFacts.

(** ** Exclusion *)

(** The claim of C1 fails at the root: the root directory is rendered
    as the first line of the tree although an exclude pattern matches
    it. *)
Lemma excluded_root_is_rendered :
  excluded proj ["/proj"] [] = true
  /\ generate_tree_lines [] [] ["/proj"] [] true proj fs_single
     = Ok [(proj, "proj"%string);
           (mkPath true ["proj"; "a.py"], "└── a.py"%string)]
  /\ In proj (map fst [(proj, "proj"%string);
                       (mkPath true ["proj"; "a.py"], "└── a.py"%string)]).
Proof. split; [reflexivity|]. split; [reflexivity|]. left. reflexivity. Qed.

(** C1, amended: a path that matches an exclude wildcard or an exclude
    regex is rejected by [should_process_path] whatever the include
    patterns and the mode; such a path has no line in the tree below the
    root's own line, and no record in the collected files. *)
Theorem exclusion_dominates inc incr exc excr recursive root_dir root p :
  excluded p exc excr = true ->
  (forall inc' incr' b, should_process_path p inc' incr' exc excr b = false)
  /\ (forall lines,
         generate_tree_lines inc incr exc excr recursive root_dir root = Ok lines ->
         ~ In p (map fst (tl lines)))
  /\ (forall files,
         collect_files inc incr exc excr recursive root_dir root = Ok files ->
         ~ In p (map fst files)).
Proof.
  intros Hex. split; [|split].
  - intros inc' incr' b. now apply should_process_path_excluded.
  - intros lines H Hin. unfold generate_tree_lines in H.
    bind_inv H. injection H as <-. simpl in Hin.
    apply generate_tree_lines_below in Ha. rewrite Forall_forall in Ha.
    destruct (Ha p Hin) as (rel & b & _ & _ & Hsel).
    apply should_process_path_true_not_excluded in Hsel. congruence.
  - intros files H Hin. apply collect_files_records in H.
    rewrite Forall_forall in H. apply in_map_iff in Hin.
    destruct Hin as (record & <- & Hrec).
    destruct (H record Hrec) as (rel & _ & _ & _ & Hsel).
    apply should_process_path_true_not_excluded in Hsel. congruence.
Qed.

Lemma exclusion_dominates_witness :
  excluded (mkPath true ["proj"; "nested"]) ["*nested*"] [] = true
  /\ generate_tree ["*"] [] ["*nested*"] [] true proj fs_nested
     = Ok ("proj" ++ newline ++ "└── x.txt")%string
  /\ (forall lines,
         generate_tree_lines ["*"] [] ["*nested*"] [] true proj fs_nested
         = Ok lines ->
         ~ In (mkPath true ["proj"; "nested"]) (map fst (tl lines))).
Proof.
  split; [reflexivity|]. split; [reflexivity|].
  apply (exclusion_dominates ["*"] [] ["*nested*"] [] true proj fs_nested
           (mkPath true ["proj"; "nested"])).
  reflexivity.
Defined.

(** ** The string that is matched *)

(** C5 at a failing input: the usage that the help text documents,
    [--exclude ".git/*"], on the root [/proj].  The pattern matches the
    root-relative form [.git/config], but the selector is given the
    walked path [/proj/.git/config], which the pattern does not match:
    the file is collected and rendered. *)
Theorem documented_exclude_misses_walked_path :
  excluded (mkPath false [".git"; "config"]) [".git/*"] [] = true
  /\ excluded (mkPath true ["proj"; ".git"; "config"]) [".git/*"] [] = false
  /\ collect_files [] [] [".git/*"] [] true proj fs_git
     = Ok [(mkPath true ["proj"; ".git"; "config"], mkPath false [".git"; "config"]);
           (mkPath true ["proj"; "main.py"], mkPath false ["main.py"])]
  /\ generate_tree [] [] [".git/*"] [] true proj fs_git
     = Ok ("proj" ++ newline
           ++ "├── .git" ++ newline
           ++ "│   └── config" ++ newline
           ++ "└── main.py")%string.
Proof. repeat split. Qed.

(** Likewise the include pattern [a.py] matches the root-relative form
    of [/proj/a.py], yet the file is neither collected nor rendered. *)
Lemma matching_is_not_root_relative :
  should_process_path (mkPath false ["a.py"]) ["a.py"] [] [] [] false = true
  /\ should_process_path (mkPath true ["proj"; "a.py"]) ["a.py"] [] [] [] false = false
  /\ collect_files ["a.py"] [] [] [] true proj fs_single = Ok []
  /\ generate_tree ["a.py"] [] [] [] true proj fs_single = Ok "proj"%string.
Proof. repeat split. Qed.

(** What the code does in general: the path given to the selector is
    the walked path, the root directory's path extended by the components
    of the root-relative path, and its string form is what wildcards and
    regexes are matched against: the string of the root, a separator,
    then the root-relative string. *)
Theorem matching_uses_walked_path inc incr exc excr recursive directory root :
  (forall files file_path rel_path,
      collect_files inc incr exc excr recursive directory root = Ok files ->
      In (file_path, rel_path) files ->
      file_path = extend directory (parts rel_path)
      /\ relative_to file_path directory = Ok rel_path
      /\ should_process_path file_path inc incr exc excr false = true
      /\ (parts directory <> [] ->
          str file_path = (str directory ++ "/" ++ str rel_path)%string))
  /\ (forall lines p,
         generate_tree_lines inc incr exc excr recursive directory root = Ok lines ->
         In p (map fst (tl lines)) ->
         exists rel b,
           rel <> [] /\ p = extend directory rel
           /\ should_process_path p inc incr exc excr b = true
           /\ (parts directory <> [] ->
               str p = (str directory ++ "/" ++ str (mkPath false rel))%string)).
Proof.
  split.
  - intros files file_path rel_path H Hin.
    apply collect_files_records in H. rewrite Forall_forall in H.
    destruct (H _ Hin) as (rel & Hne & Hfp & Hrel & Hsel). simpl in *. subst.
    repeat split; auto using relative_to_extend.
    intros Hdir. now apply str_extend.
  - intros lines p H Hin. unfold generate_tree_lines in H.
    bind_inv H. injection H as <-. simpl in Hin.
    apply generate_tree_lines_below in Ha. rewrite Forall_forall in Ha.
    destruct (Ha p Hin) as (rel & b & Hne & -> & Hsel).
    exists rel, b. repeat split; auto.
    intros Hdir. now apply str_extend.
Qed.

Lemma matching_uses_walked_path_witness :
  collect_files ["*.py"] [] [] [] true proj fs_single
  = Ok [(mkPath true ["proj"; "a.py"], mkPath false ["a.py"])]
  /\ should_process_path (mkPath true ["proj"; "a.py"]) ["*.py"] [] [] [] false = true
  /\ str (mkPath true ["proj"; "a.py"]) = "/proj/a.py"%string.
Proof.
  split; [reflexivity|].
  destruct (proj1 (matching_uses_walked_path ["*.py"] [] [] [] true proj fs_single)
              [(mkPath true ["proj"; "a.py"], mkPath false ["a.py"])]
              (mkPath true ["proj"; "a.py"]) (mkPath false ["a.py"])
              eq_refl (or_introl eq_refl))
    as (_ & _ & Hsel & Hstr).
  split; [exact Hsel|].
  rewrite Hstr by discriminate. reflexivity.
Defined.

(** ** The tree without recursion *)

(** A selected file of a listable directory has its line at every depth
    and in both modes. *)
Lemma generate_tree_file_child inc incr exc excr recursive
    dname cs directory prefix depth ls f :
  _generate_tree inc incr exc excr recursive (Dir dname true cs) directory prefix depth
  = Ok ls ->
  In (File f) cs ->
  should_process_path (joinpath directory f) inc incr exc excr false = true ->
  In (joinpath directory f) (map fst ls).
Proof.
  simpl. intros H Hc Hsel.
  apply (render_items_has_item recursive _ _ _ _ _ (File f)
           (_generate_tree inc incr exc excr recursive (File f)) H).
  apply filter_In. split.
  - apply tree_items_In. eauto.
  - unfold is_visible. simpl. rewrite andb_false_r. exact Hsel.
Qed.

(** Without recursion, below depth 0 only the selected files of the
    directory have a line. *)
Lemma non_recursive_subdirectory_lines inc incr exc excr
    d l cs directory prefix n ls p :
  _generate_tree inc incr exc excr false (Dir d l cs) directory prefix (S n) = Ok ls ->
  In p (map fst ls) ->
  exists f, In (File f) cs /\ p = joinpath directory f
            /\ should_process_path p inc incr exc excr false = true.
Proof.
  simpl. destruct l; [|discriminate]. intros H Hp.
  apply in_map_iff in Hp. destruct Hp as (ln & <- & Hln).
  destruct (render_items_lines _ _ _ _ _ _ _ H Hln) as (item & sub & Hin & Hcase).
  apply filter_In in Hin. destruct Hin as [Hin Hvis].
  apply tree_items_In in Hin. destruct Hin as (c & Hc & Heq).
  injection Heq as -> ->.
  unfold is_visible in Hvis. simpl in Hvis.
  destruct c as [f|d' l' cs']; simpl in *; [|discriminate].
  destruct Hcase as [Hline|(Hdir & _)]; [|discriminate].
  exists f. rewrite Hline. auto.
Qed.

(** C6 at a failing input: [/proj] holds [x.txt] and [nested/y.txt] and
    [recursive] is false.  The tree shows [y.txt] under [nested], although
    the descent is commented as made when recursive mode is on, and
    although [collect_files] takes the files of the root only, so that
    [nested/y.txt] has a line and no content block. *)
Theorem non_recursive_tree_expands_subdirectory :
  generate_tree [] [] [] [] false proj fs_nested
  = Ok ("proj" ++ newline
        ++ "├── nested" ++ newline
        ++ "│   └── y.txt" ++ newline
        ++ "└── x.txt")%string
  /\ (exists lines,
         generate_tree_lines [] [] [] [] false proj fs_nested = Ok lines
         /\ In (mkPath true ["proj"; "nested"; "y.txt"]) (map fst lines))
  /\ collect_files [] [] [] [] false proj fs_nested
     = Ok [(mkPath true ["proj"; "x.txt"], mkPath false ["x.txt"])].
Proof.
  split; [reflexivity|]. split; [|reflexivity].
  eexists. split; [reflexivity|]. simpl. auto.
Qed.

(** The same tree, line by line. *)
Lemma non_recursive_tree_shows_nested_file :
  generate_tree [] [] [] [] false proj fs_nested
  = Ok ("proj" ++ newline
        ++ "├── nested" ++ newline
        ++ "│   └── y.txt" ++ newline
        ++ "└── x.txt")%string
  /\ exists lines,
      generate_tree_lines [] [] [] [] false proj fs_nested = Ok lines
      /\ In (mkPath true ["proj"; "nested"; "y.txt"]) (map fst lines).
Proof.
  split; [reflexivity|]. eexists. split; [reflexivity|]. simpl. auto.
Qed.

(** What the code does in general: when [recursive] is false,
    [generate_tree] lists each selected immediate subdirectory of the
    root and expands it by one level: every line below the root's is a
    selected child of the root or
    a selected file lying directly in an immediate subdirectory, each
    such file of a selected subdirectory is listed, and no subdirectory
    of an immediate subdirectory, nor anything deeper, has a line. *)
Theorem non_recursive_tree_one_level inc incr exc excr root_dir rname children lines :
  generate_tree_lines inc incr exc excr false root_dir (Dir rname true children)
  = Ok lines ->
  (forall p, In p (map fst (tl lines)) ->
     (exists c, In c children /\ p = joinpath root_dir (entry_name c)
                /\ should_process_path p inc incr exc excr (is_dir c) = true)
     \/ (exists d l cs f,
            In (Dir d l cs) children /\ In (File f) cs
            /\ p = joinpath (joinpath root_dir d) f
            /\ should_process_path p inc incr exc excr false = true))
  /\ (forall d l cs,
         In (Dir d l cs) children ->
         should_process_path (joinpath root_dir d) inc incr exc excr true = true ->
         In (joinpath root_dir d) (map fst (tl lines))
         /\ forall f,
             In (File f) cs ->
             should_process_path (joinpath (joinpath root_dir d) f)
               inc incr exc excr false = true ->
             In (joinpath (joinpath root_dir d) f) (map fst (tl lines))).
Proof.
  intros H. unfold generate_tree_lines in H. bind_inv H. injection H as <-.
  simpl tl. split.
  - intros p Hp. apply in_map_iff in Hp. destruct Hp as (ln & <- & Hln).
    pose proof Ha as Hrender. simpl in Hrender.
    destruct (render_items_lines _ _ _ _ _ _ _ Hrender Hln)
      as (item & sub & Hin & Hcase).
    apply filter_In in Hin. destruct Hin as [Hin Hvis].
    apply tree_items_In in Hin. destruct Hin as (c & Hc & Heq).
    injection Heq as -> ->.
    unfold is_visible in Hvis. simpl in Hvis. rewrite andb_false_r in Hvis.
    destruct Hcase as [Hline|(Hdir & _ & pre & below & Hbelow & Hmem)].
    + left. exists c. rewrite Hline. auto.
    + right. destruct c as [f|d l cs]; [discriminate|].
      cbn [entry_name] in Hbelow.
      destruct (non_recursive_subdirectory_lines _ _ _ _ _ _ _ _ _ _ _ (fst ln)
                  Hbelow (in_map fst _ _ Hmem)) as (f & Hf & Hpath & Hsel).
      exists d, l, cs, f. auto.
  - intros d l cs Hd Hsel.
    pose proof (generate_tree_child _ _ _ _ _ _ _ _ _ _ (Dir d l cs) Ha Hd Hsel) as Hline.
    split; [exact Hline|]. intros f Hf Hfsel.
    pose proof Ha as Hrender. simpl in Hrender.
    destruct (render_items_has_below false root_dir EmptyString 0 _ _ (Dir d l cs)
                (_generate_tree inc incr exc excr false (Dir d l cs)) Hrender)
      as (pre & below & Hbelow & Hincl); try reflexivity.
    { apply filter_In. split.
      - apply tree_items_In. eauto.
      - unfold is_visible. simpl. exact Hsel. }
    cbn [entry_name] in Hbelow.
    destruct l; [|discriminate].
    pose proof (generate_tree_file_child _ _ _ _ _ _ _ _ _ _ _ f Hbelow Hf Hfsel) as Hin.
    apply in_map_iff in Hin. destruct Hin as (ln & Hfst & Hln).
    apply in_map_iff. exists ln. split; [exact Hfst|]. now apply Hincl.
Qed.

Lemma non_recursive_tree_one_level_witness :
  generate_tree_lines [] [] [] [] false proj
    (Dir "proj" true
       [File "x.txt"; Dir "nested" true [File "y.txt"; Dir "deep" true [File "z.txt"]]])
  = Ok [(proj, "proj"%string);
        (mkPath true ["proj"; "nested"], "├── nested"%string);
        (mkPath true ["proj"; "nested"; "y.txt"], "│   └── y.txt"%string);
        (mkPath true ["proj"; "x.txt"], "└── x.txt"%string)]
  /\ In (joinpath (joinpath proj "nested") "y.txt")
        (map fst (tl [(proj, "proj"%string);
                      (mkPath true ["proj"; "nested"], "├── nested"%string);
                      (mkPath true ["proj"; "nested"; "y.txt"], "│   └── y.txt"%string);
                      (mkPath true ["proj"; "x.txt"], "└── x.txt"%string)])).
Proof.
  split; [reflexivity|].
  refine (proj2 (proj2 (non_recursive_tree_one_level [] [] [] [] proj "proj"
           [File "x.txt"; Dir "nested" true [File "y.txt"; Dir "deep" true [File "z.txt"]]]
           _ eq_refl)
         "nested"%string true [File "y.txt"; Dir "deep" true [File "z.txt"]]
         _ eq_refl) "y.txt"%string _ eq_refl).
  - right. left. reflexivity.
  - left. reflexivity.
Defined.

(** ** Directories that cannot be listed *)

(** The claim of C7 fails: [locked] cannot be listed, yet the recursive
    collection returns normally, with the file found beside it. *)
Lemma unlistable_directory_is_skipped :
  collect_files [] [] [] [] true proj fs_locked
  = Ok [(mkPath true ["proj"; "a.txt"], mkPath false ["a.txt"])].
Proof. reflexivity. Qed.

(** C7, amended: in recursive mode a directory that cannot be listed is
    passed over by the walk without an error: [collect_files] returns a
    list for every file system, and the empty list when the root itself
    cannot be listed.  In non-recursive mode a root that cannot be listed
    makes [collect_files] fail, and no list is returned. *)
Theorem collect_files_listing_errors inc incr exc excr directory :
  (forall root,
      exists files, collect_files inc incr exc excr true directory root = Ok files)
  /\ (forall d cs,
         collect_files inc incr exc excr true directory (Dir d false cs) = Ok [])
  /\ (forall d cs,
         collect_files inc incr exc excr false directory (Dir d false cs)
         = Raise permission_denied).
Proof.
  split; [|split].
  - intros root. apply collect_files_total_recursive.
  - reflexivity.
  - reflexivity.
Qed.

(** ** Files that cannot be read *)

(** [is_binary_file] lets the error of [open] through. *)
Lemma is_binary_file_unopenable file_at file_path msg :
  file_at file_path = Unopenable msg ->
  is_binary_file file_at file_path = Raise (OSError msg).
Proof. unfold is_binary_file. now intros ->. Qed.

(** An unopenable file among the collected ones stops the run. *)
Lemma write_file_blocks_unopenable file_at files file_path rel_path msg :
  In (file_path, rel_path) files ->
  file_at file_path = Unopenable msg ->
  exists e, write_file_blocks file_at files = Raise e.
Proof.
  intros Hin Hdata. induction files as [|r files IH]; [contradiction|].
  simpl. destruct Hin as [->|Hin].
  - simpl. rewrite (is_binary_file_unopenable _ _ _ Hdata). simpl. eauto.
  - destruct (write_file_block file_at r); simpl; [|eauto].
    destruct (IH Hin) as (e & ->). simpl. eauto.
Qed.

(** C8 at a failing input: [/proj/a.py] is collected but cannot be
    opened; [is_binary_file] lets the [OSError] through and
    [create_markdown] stops with it, whereas a decoding error met by the
    guarded read is turned into the placeholder. *)
Theorem unopenable_file_aborts_create_markdown :
  create_markdown [] [] [] [] true (fun _ => Unopenable "Permission denied")
    proj fs_single
  = Raise (OSError "Permission denied")
  /\ create_markdown [] [] [] [] true (fun _ => UndecodableTail "invalid start byte")
       proj fs_single
     = Ok (document_head ("proj" ++ newline ++ "└── a.py")
           ++ "`a.py`" ++ newline ++ backticks ++ "py" ++ newline
           ++ "/* Error reading file: invalid start byte */"
           ++ newline ++ backticks ++ newline ++ newline)%string.
Proof. split; reflexivity. Qed.

(** ** The root *)



(** * Further properties *)

(** ** The selector and its rule lists *)

Lemma existsb_perm {A : Type} (f : A -> bool) l l' :
  Permutation l l' -> existsb f l = existsb f l'.
Proof.
  induction 1; simpl; try congruence.
  - destruct (f x), (f y); reflexivity.
Qed.

Lemma nonempty_perm {A : Type} (l l' : list A) :
  Permutation l l' -> nonempty l = nonempty l'.
Proof.
  intros H. destruct l, l'; try reflexivity.
  - apply Permutation_nil in H. discriminate.
  - symmetry in H. apply Permutation_nil in H. discriminate.
Qed.

(** The order of the patterns within each of the four lists does not
    matter. *)
Theorem should_process_path_order_free path inc incr exc excr inc' incr' exc' excr' b :
  Permutation inc inc' -> Permutation incr incr' ->
  Permutation exc exc' -> Permutation excr excr' ->
  should_process_path path inc incr exc excr b
  = should_process_path path inc' incr' exc' excr' b.
Proof.
  intros H1 H2 H3 H4. unfold should_process_path. cbv zeta.
  rewrite (existsb_perm _ _ _ H3), (existsb_perm _ _ _ H4).
  rewrite (existsb_perm _ _ _ H1), (existsb_perm _ _ _ H2).
  rewrite (nonempty_perm _ _ H1), (nonempty_perm _ _ H2). reflexivity.
Qed.

Lemma should_process_path_order_free_witness :
  should_process_path (mkPath true ["proj"; "a.py"])
    ["*.md"; "*.py"] [] ["*.pyc"; "*.git*"] [] false
  = should_process_path (mkPath true ["proj"; "a.py"])
      ["*.py"; "*.md"] [] ["*.git*"; "*.pyc"] [] false.
Proof.
  apply (should_process_path_order_free (mkPath true ["proj"; "a.py"])
           ["*.md"; "*.py"] [] ["*.pyc"; "*.git*"] []
           ["*.py"; "*.md"] [] ["*.git*"; "*.pyc"] [] false);
    try apply perm_swap; apply perm_nil.
Defined.

(** More exclude patterns never let more paths through. *)
Theorem more_excludes_select_less path inc incr exc excr exc' excr' b :
  should_process_path path inc incr (exc ++ exc') (excr ++ excr') b = true ->
  should_process_path path inc incr exc excr b = true.
Proof.
  unfold should_process_path. cbv zeta. rewrite !existsb_app.
  destruct (existsb _ exc); simpl; [discriminate|].
  destruct (existsb _ excr); simpl.
  - rewrite orb_true_r. discriminate.
  - destruct (existsb _ exc' || existsb _ excr'); [discriminate|]. auto.
Qed.

Lemma more_excludes_select_less_witness :
  should_process_path (mkPath true ["proj"; "a.py"]) [] [] ["*.pyc"] [] false = true.
Proof.
  apply (more_excludes_select_less (mkPath true ["proj"; "a.py"])
           [] [] ["*.pyc"] [] ["*.git*"] [re_literal "cache"] false).
  reflexivity.
Defined.

(** Include patterns only narrow the selection when they are the first
    ones: a path selected under some include lists is selected with no
    include list at all, and, once there is an include pattern, further
    include patterns never remove a path. *)
Theorem include_lists_narrow_then_widen path inc incr exc excr b :
  should_process_path path inc incr exc excr b = true ->
  should_process_path path [] [] exc excr b = true
  /\ (nonempty inc || nonempty incr = true ->
      forall inc' incr',
        should_process_path path (inc ++ inc') (incr ++ incr') exc excr b = true).
Proof.
  unfold should_process_path. cbv zeta.
  destruct (existsb _ exc || existsb _ excr); [discriminate|].
  destruct b.
  - intros _. split; [reflexivity|]. intros _ inc' incr'. apply orb_true_r.
  - intros H. split; [reflexivity|]. intros Hne inc' incr'.
    rewrite Hne in H.
    assert (Hne' : nonempty (inc ++ inc') || nonempty (incr ++ incr') = true).
    { destruct inc, incr; simpl in *; rewrite ?orb_true_r; try reflexivity;
      discriminate. }
    rewrite Hne', !existsb_app.
    apply orb_true_iff in H. destruct H as [->| ->]; simpl;
      [reflexivity|]. now rewrite !orb_true_r.
Qed.

Lemma include_lists_narrow_then_widen_witness :
  should_process_path (mkPath true ["proj"; "a.py"]) [] [] [] [] false = true
  /\ should_process_path (mkPath true ["proj"; "a.py"])
       (["*.py"] ++ ["*.md"]) ([] ++ [re_literal "doc"]) [] [] false = true.
Proof.
  destruct (include_lists_narrow_then_widen (mkPath true ["proj"; "a.py"])
              ["*.py"] [] [] [] false eq_refl) as [H1 H2].
  split; [exact H1|]. apply H2. reflexivity.
Defined.

(** ** Patterns without wildcard characters *)

Lemma translate_aux_plain l :
  forall fuel,
    List.length l <= fuel ->
    forallb (fun c => negb (is_wildcard_char c)) l = true ->
    Fnmatch.translate_aux fuel l = map Fnmatch.TLit l.
Proof.
  induction l as [|c l IH]; intros [|fuel] Hlen Hplain; simpl in *;
    try reflexivity; try lia.
  apply andb_true_iff in Hplain. destruct Hplain as [Hc Hl].
  unfold is_wildcard_char in Hc. apply negb_true_iff in Hc.
  apply orb_false_iff in Hc. destruct Hc as [Hc H3].
  apply orb_false_iff in Hc. destruct Hc as [H1 H2].
  rewrite H1, H2, H3. f_equal. apply IH; [lia|exact Hl].
Qed.

Lemma matches_literals l s :
  Fnmatch.matches (map Fnmatch.TLit l) s = true <-> s = l.
Proof.
  revert s. induction l as [|c l IH]; intros [|x s]; simpl;
    try (split; [discriminate|congruence]); [tauto|].
  rewrite andb_true_iff, IH. split.
  - intros [Hc ->]. apply Ascii.eqb_eq in Hc. congruence.
  - intros H. injection H as -> ->. split; [apply Ascii.eqb_refl|reflexivity].
Qed.

Lemma fnmatch_plain name pat :
  plain_pattern pat = true ->
  (Fnmatch.fnmatch name pat = true <-> name = pat).
Proof.
  intros Hplain. unfold Fnmatch.fnmatch, Fnmatch.translate.
  rewrite translate_aux_plain by (auto; exact Hplain).
  rewrite matches_literals. split; [|congruence].
  intros H. rewrite <- (string_of_list_ascii_of_string name), H.
  apply string_of_list_ascii_of_string.
Qed.

(** An exclude wildcard without [*], [?] and [[] excludes the one path
    whose string form is the pattern itself, and no path under it: as the
    only exclude rule it lets a directory through exactly when the
    directory's walked path differs from the pattern. *)
Theorem plain_exclude_matches_whole_path path inc incr pat :
  plain_pattern pat = true ->
  (should_process_path path inc incr [pat] [] true = true <-> str path <> pat).
Proof.
  intros Hplain. unfold should_process_path. cbv zeta. simpl existsb.
  rewrite !orb_false_r.
  destruct (Fnmatch.fnmatch (str path) pat) eqn:E.
  - apply (fnmatch_plain _ _ Hplain) in E. split; [discriminate|congruence].
  - split; [|intros _; apply orb_true_r].
    intros _ Heq. apply (fnmatch_plain _ _ Hplain) in Heq. congruence.
Qed.

Lemma plain_exclude_matches_whole_path_witness :
  should_process_path (mkPath true ["proj"; ".git"]) [] [] [".git"] [] true = true.
Proof.
  apply (plain_exclude_matches_whole_path (mkPath true ["proj"; ".git"]) [] [] ".git");
    [reflexivity|discriminate].
Defined.

(** ** The tag of a fenced block *)

Lemma name_joinpath p n : name (joinpath p n) = n.
Proof. unfold name, joinpath. simpl. apply last_last. Qed.

Lemma rsplit_dot_none s : has_dot s = false -> rsplit_dot s = None.
Proof.
  induction s as [|c s IH]; simpl; [reflexivity|]. intros H.
  apply orb_false_iff in H. destruct H as [Hc Hs].
  now rewrite (IH Hs), Hc.
Qed.

Lemma rsplit_dot_last stem ext :
  has_dot ext = false ->
  rsplit_dot (stem ++ "." ++ ext) = Some (stem, ext).
Proof.
  intros Hext. induction stem as [|c stem IH]; simpl.
  - now rewrite (rsplit_dot_none _ Hext).
  - simpl in IH. now rewrite IH.
Qed.

(** The tag [file_path.suffix.lstrip('.')] of a block: empty for a name
    without a dot, for a name whose only dot is its first character and
    for a name that ends with its last dot; otherwise, for a name that
    does not start with a dot, the text after the last dot. *)
Theorem fence_tag_is_last_extension p :
  (forall n, has_dot n = false -> suffix_lstrip (joinpath p n) = EmptyString)
  /\ (forall ext, has_dot ext = false ->
        suffix_lstrip (joinpath p ("." ++ ext)) = EmptyString)
  /\ (forall stem, suffix_lstrip (joinpath p (stem ++ ".")) = EmptyString)
  /\ (forall c stem ext,
        Ascii.eqb c "."%char = false -> has_dot ext = false -> ext <> EmptyString ->
        suffix_lstrip (joinpath p (String c stem ++ "." ++ ext)) = ext).
Proof.
  unfold suffix_lstrip. repeat split.
  - intros n H. now rewrite name_joinpath, (rsplit_dot_none _ H).
  - intros ext H. rewrite name_joinpath.
    pose proof (rsplit_dot_last EmptyString ext H) as R.
    simpl in R |- *. now rewrite R.
  - intros stem. rewrite name_joinpath.
    change (stem ++ ".")%string with (stem ++ "." ++ EmptyString)%string.
    rewrite (rsplit_dot_last stem EmptyString eq_refl). now destruct stem.
  - intros c stem ext Hc Hext Hne. rewrite name_joinpath.
    rewrite (rsplit_dot_last (String c stem) ext Hext).
    destruct ext; [congruence|reflexivity].
Qed.

Lemma fence_tag_is_last_extension_witness :
  suffix_lstrip (joinpath proj "Makefile") = EmptyString
  /\ suffix_lstrip (joinpath proj ".bashrc") = EmptyString
  /\ suffix_lstrip (joinpath proj "archive.tar.gz") = "gz"%string.
Proof.
  destruct (fence_tag_is_last_extension proj) as (H1 & H2 & _ & H4).
  split; [apply (H1 "Makefile"%string); reflexivity|].
  split; [apply (H2 "bashrc"%string); reflexivity|].
  apply (H4 "a"%char "rchive.tar"%string "gz"%string);
    [reflexivity|reflexivity|discriminate].
Defined.

(** ** What the walker collects *)

Lemma concat_mapM_each {A B : Type} (f : A -> result (list B)) l out a :
  concat_mapM f l = Ok out -> In a l ->
  exists bs, f a = Ok bs /\ incl bs out.
Proof.
  revert out. induction l as [|a' l IH]; simpl; intros out H Ha; [contradiction|].
  bind_inv H. bind_inv H. injection H as <-.
  destruct Ha as [->|Ha].
  - eexists. split; [eassumption|]. now apply incl_appl.
  - destruct (IH _ Ha1 Ha) as (bs & Hbs & Hincl).
    eexists. split; [eassumption|]. now apply incl_appr.
Qed.

Lemma collect_file_In inc incr exc excr directory pre item bs record :
  collect_file inc incr exc excr directory (extend directory pre) item = Ok bs ->
  In record bs ->
  exists f, item = File f
            /\ should_process_path (joinpath (extend directory pre) f)
                 inc incr exc excr false = true
            /\ record = (extend directory (pre ++ [f]), mkPath false (pre ++ [f])).
Proof.
  destruct item as [f|d l cs]; simpl.
  - destruct (should_process_path _ _ _ _ _ _) eqn:E.
    + rewrite joinpath_of_extend, relative_to_extend. simpl.
      intros H. injection H as <-. intros [<-|[]]. eauto.
    + intros H. injection H as <-. contradiction.
  - intros H. injection H as <-. contradiction.
Qed.

(** The recursive walk returns the files it [reaches], and only them. *)
Lemma os_walk_exact inc incr exc excr directory node :
  forall pre found,
    os_walk inc incr exc excr directory (extend directory pre) node = Ok found ->
    forall record,
      In record found
      <-> exists rel,
          reaches inc incr exc excr (extend directory pre) node rel
          /\ record = (extend directory (pre ++ rel), mkPath false (pre ++ rel)).
Proof.
  induction node as [f|d l cs IH] using entry_ind'; intros pre found; simpl.
  - intros H. injection H as <-. intros record. split; [contradiction|].
    intros (rel & Hr & _). inversion Hr.
  - destruct l.
    2:{ intros H. injection H as <-. intros record. split; [contradiction|].
        intros (rel & Hr & _). inversion Hr. }
    intros H. bind_inv H. bind_inv H. injection H as <-.
    rewrite Forall_forall in IH. intros record. split.
    + intros Hin. apply in_app_or in Hin. destruct Hin as [Hin|Hin].
      * destruct (concat_mapM_In _ _ _ _ Ha Hin) as (c & bs & Hc & Hbs & Hmem).
        destruct (collect_file_In _ _ _ _ _ _ _ _ _ Hbs Hmem) as (f & -> & Hsel & ->).
        exists [f]. split; [|reflexivity]. now constructor.
      * destruct (concat_mapM_In _ _ _ _ Ha0 Hin) as (c & bs & Hc & Hbs & Hmem).
        destruct c as [f|d' l' cs']; [injection Hbs as <-; contradiction|].
        destruct (should_process_path _ _ _ _ _ _) eqn:Hsel;
          [|injection Hbs as <-; contradiction].
        rewrite joinpath_of_extend in Hbs.
        destruct (proj1 (IH _ Hc _ _ Hbs record) Hmem) as (rel & Hr & ->).
        exists (d' :: rel). rewrite <- !app_assoc. split; [|reflexivity].
        econstructor; eauto. now rewrite joinpath_of_extend.
    + intros (rel & Hr & ->).
      inversion Hr as [top' d0 cs0 f Hf Hsel|top' d0 cs0 d' l' cs' rel' Hd Hsel Hr'];
        subst.
      * apply in_or_app. left.
        destruct (concat_mapM_each _ _ _ _ Ha Hf) as (bs & Hbs & Hincl).
        rewrite collect_file_selected in Hbs by assumption.
        injection Hbs as <-. apply Hincl. rewrite joinpath_of_extend. now left.
      * apply in_or_app. right.
        destruct (concat_mapM_each _ _ _ _ Ha0 Hd) as (bs & Hbs & Hincl).
        simpl in Hbs. rewrite Hsel in Hbs. rewrite joinpath_of_extend in Hbs, Hr'.
        apply Hincl. apply (IH _ Hd _ _ Hbs).
        exists rel'. split; [exact Hr'|]. now rewrite <- !app_assoc.
Qed.

(** In recursive mode every record that [collect_files] returns is the
    record of a file that is selected itself and lies below the root
    through directories that are all selected and can all be listed; the
    record holds the walked path and the root-relative path. *)
Theorem collect_files_recursive_reaches
    inc incr exc excr directory root files file_path rel_path :
  collect_files inc incr exc excr true directory root = Ok files ->
  In (file_path, rel_path) files ->
  exists rel,
    reaches inc incr exc excr directory root rel
    /\ file_path = extend directory rel /\ rel_path = mkPath false rel.
Proof.
  unfold collect_files. intros H Hin. bind_inv H. injection H as <-.
  apply sorted_In in Hin.
  rewrite <- (extend_nil directory) in Ha at 2.
  apply (os_walk_exact _ _ _ _ _ _ _ _ Ha) in Hin.
  destruct Hin as (rel & Hr & Heq). rewrite extend_nil in Hr.
  injection Heq as -> ->. eauto.
Qed.

Lemma collect_files_recursive_reaches_witness :
  exists rel,
    reaches [] [] [] [] proj fs_nested rel
    /\ mkPath true ["proj"; "nested"; "y.txt"] = extend proj rel
    /\ mkPath false ["nested"; "y.txt"] = mkPath false rel.
Proof.
  apply (collect_files_recursive_reaches [] [] [] [] proj fs_nested _ _ _ eq_refl).
  left. reflexivity.
Defined.

Lemma reaches_ancestors inc incr exc excr top node rel :
  reaches inc incr exc excr top node rel ->
  forall rel1 rel2,
    rel = rel1 ++ rel2 -> rel1 <> [] -> rel2 <> [] ->
    should_process_path (extend top rel1) inc incr exc excr true = true.
Proof.
  induction 1 as [top d cs f Hin Hsel|top d cs d' l' cs' rel Hin Hsel Hr IH];
    intros rel1 rel2 Heq H1 H2.
  - destruct rel1 as [|a [|b rel1]]; [congruence| |discriminate].
    injection Heq as _ Heq. congruence.
  - destruct rel1 as [|a rel1]; [congruence|]. injection Heq as <- Heq.
    destruct rel1 as [|b rel1]; [exact Hsel|].
    specialize (IH (b :: rel1) rel2 Heq ltac:(discriminate) H2).
    rewrite joinpath_extend, extend_extend in IH. exact IH.
Qed.

(** Pruning: every directory between the root and a file collected in
    recursive mode passed the directory check, so nothing that lies under
    an excluded directory is collected. *)
Theorem collected_files_avoid_excluded_directories
    inc incr exc excr directory root files file_path rel_path above below :
  collect_files inc incr exc excr true directory root = Ok files ->
  In (file_path, rel_path) files ->
  parts rel_path = above ++ below -> above <> [] -> below <> [] ->
  excluded (extend directory above) exc excr = false.
Proof.
  intros H Hin Hparts Ha Hb.
  unfold collect_files in H. bind_inv H. injection H as <-.
  apply sorted_In in Hin.
  rewrite <- (extend_nil directory) in Ha0 at 2.
  apply (os_walk_exact _ _ _ _ _ _ _ _ Ha0) in Hin.
  destruct Hin as (rel & Hr & Heq). rewrite extend_nil in Hr.
  injection Heq as -> ->. simpl in Hparts.
  eapply should_process_path_true_not_excluded.
  eapply reaches_ancestors; eauto.
Qed.

Lemma collected_files_avoid_excluded_directories_witness :
  excluded (extend proj ["nested"]) ["*.git*"] [] = false.
Proof.
  apply (collected_files_avoid_excluded_directories [] [] ["*.git*"] [] proj fs_nested
           _ (mkPath true ["proj"; "nested"; "y.txt"]) (mkPath false ["nested"; "y.txt"])
           ["nested"] ["y.txt"] eq_refl);
    [left; reflexivity|reflexivity|discriminate|discriminate].
Defined.

Lemma iterdir_files_exact inc incr exc excr directory rname children :
  exists found,
    iterdir_files inc incr exc excr directory (Dir rname true children) = Ok found
    /\ forall file_path rel_path,
        In (file_path, rel_path) found
        <-> exists f,
            In (File f) children
            /\ should_process_path (joinpath directory f) inc incr exc excr false = true
            /\ file_path = joinpath directory f /\ rel_path = mkPath false [f].
Proof.
  simpl.
  destruct (concat_mapM_total
              (collect_file inc incr exc excr directory directory) children)
    as (found & Hfound).
  { apply Forall_forall. intros c _.
    pose proof (collect_file_total inc incr exc excr directory [] c) as H.
    now rewrite extend_nil in H. }
  exists found. split; [exact Hfound|].
  intros file_path rel_path. split.
  - intros Hin.
    destruct (concat_mapM_In _ _ _ _ Hfound Hin) as (c & bs & Hc & Hbs & Hmem).
    rewrite <- (extend_nil directory) in Hbs at 2.
    destruct (collect_file_In _ _ _ _ _ _ _ _ _ Hbs Hmem) as (f & -> & Hsel & Heq).
    rewrite extend_nil in Hsel. injection Heq as -> ->. exists f. auto.
  - intros (f & Hf & Hsel & -> & ->).
    destruct (concat_mapM_each _ _ _ _ Hfound Hf) as (bs & Hbs & Hincl).
    pose proof (collect_file_selected inc incr exc excr directory [] f) as Hone.
    rewrite extend_nil in Hone. rewrite (Hone Hsel) in Hbs.
    injection Hbs as <-. apply Hincl. now left.
Qed.

(** Without recursion the list that [collect_files] returns holds
    exactly the selected files that lie directly in the root, each with
    its name as relative path. *)
Theorem collect_files_flat_exact inc incr exc excr directory rname children files :
  collect_files inc incr exc excr false directory (Dir rname true children) = Ok files ->
  forall file_path rel_path,
    In (file_path, rel_path) files
    <-> exists f,
        In (File f) children
        /\ should_process_path (joinpath directory f) inc incr exc excr false = true
        /\ file_path = joinpath directory f /\ rel_path = mkPath false [f].
Proof.
  destruct (iterdir_files_exact inc incr exc excr directory rname children)
    as (found & Hfound & Hchar).
  unfold collect_files. rewrite Hfound. simpl. intros H. injection H as <-.
  intros file_path rel_path. rewrite sorted_In. apply Hchar.
Qed.

Lemma collect_files_flat_exact_witness :
  In (mkPath true ["proj"; "x.txt"], mkPath false ["x.txt"])
     [(mkPath true ["proj"; "x.txt"], mkPath false ["x.txt"])]
  <-> exists f,
      In (File f) [File "x.txt"; Dir "nested" true [File "y.txt"]]
      /\ should_process_path (joinpath proj f) [] [] [] [] false = true
      /\ mkPath true ["proj"; "x.txt"] = joinpath proj f
      /\ mkPath false ["x.txt"] = mkPath false [f].
Proof.
  apply (collect_files_flat_exact [] [] [] [] proj "proj"
           [File "x.txt"; Dir "nested" true [File "y.txt"]] _ eq_refl).
Defined.

(** ** What the tree shows *)

(** Every line below a directory is the line of an entry it [shows]. *)
Lemma tree_lines_shown inc incr exc excr recursive node :
  forall directory prefix depth ls p,
    _generate_tree inc incr exc excr recursive node directory prefix depth = Ok ls ->
    In p (map fst ls) ->
    exists rel, shows inc incr exc excr directory node rel /\ p = extend directory rel.
Proof.
  induction node as [f|d l cs IH] using entry_ind';
    intros directory prefix depth ls p; simpl; [discriminate|].
  destruct l; [|discriminate].
  intros H Hp. apply in_map_iff in Hp. destruct Hp as (ln & <- & Hln).
  destruct (render_items_lines _ _ _ _ _ _ _ H Hln) as (item & sub & Hin & Hcase).
  apply filter_In in Hin. destruct Hin as [Hin Hvis].
  apply tree_items_In in Hin. destruct Hin as (c & Hc & Heq).
  injection Heq as -> ->.
  unfold is_visible in Hvis. simpl in Hvis.
  destruct (negb recursive && is_dir c && Nat.ltb 0 depth); [discriminate|].
  destruct Hcase as [Hline|(Hdir & _ & pre & below & Hbelow & Hmem)].
  - exists [entry_name c]. rewrite Hline. split; [|reflexivity]. now constructor.
  - rewrite Forall_forall in IH.
    destruct (IH c Hc _ _ _ _ (fst ln) Hbelow (in_map fst _ _ Hmem))
      as (rel & Hrel & Hpath).
    destruct c as [f|d' l' cs']; [discriminate|]. simpl in *.
    exists (d' :: rel). split; [now econstructor; eauto|].
    rewrite Hpath, joinpath_extend, extend_extend. reflexivity.
Qed.

(** With recursion every entry a directory [shows] has its line. *)
Lemma shown_has_line inc incr exc excr directory node rel :
  shows inc incr exc excr directory node rel ->
  forall prefix depth ls,
    _generate_tree inc incr exc excr true node directory prefix depth = Ok ls ->
    In (extend directory rel) (map fst ls).
Proof.
  induction 1 as [top d cs c Hin Hsel|top d cs d' l' cs' rel Hin Hsel Hs IH];
    intros prefix depth ls H.
  - rewrite <- joinpath_extend. simpl in H.
    apply (render_items_has_item true _ _ _ _ _ c
             (_generate_tree inc incr exc excr true c) H).
    apply filter_In. split; [apply tree_items_In; eauto|exact Hsel].
  - pose proof H as Hrender. simpl in Hrender.
    destruct (render_items_has_below true top prefix depth _ _ (Dir d' l' cs')
                (_generate_tree inc incr exc excr true (Dir d' l' cs')) Hrender)
      as (pre & below & Hbelow & Hincl); try reflexivity.
    { apply filter_In. split; [apply tree_items_In; eauto|exact Hsel]. }
    cbn [entry_name] in Hbelow. specialize (IH _ _ _ Hbelow).
    rewrite joinpath_extend, extend_extend in IH. simpl in IH.
    apply in_map_iff in IH. destruct IH as (ln & Hfst & Hln).
    apply in_map_iff. exists ln. split; [exact Hfst|]. now apply Hincl.
Qed.

(** In recursive mode, below the root's line the tree has a line for
    exactly the selected entries that lie below the root through selected
    directories. *)
Theorem tree_recursive_exact inc incr exc excr root_dir root lines :
  generate_tree_lines inc incr exc excr true root_dir root = Ok lines ->
  forall p,
    In p (map fst (tl lines))
    <-> exists rel, shows inc incr exc excr root_dir root rel /\ p = extend root_dir rel.
Proof.
  intros H. unfold generate_tree_lines in H. bind_inv H. injection H as <-.
  simpl tl. intros p. split.
  - eapply tree_lines_shown; eauto.
  - intros (rel & Hrel & ->). eapply shown_has_line; eauto.
Qed.

Lemma tree_recursive_exact_witness :
  In (mkPath true ["proj"; "nested"; "y.txt"])
     (map fst (tl [(proj, "proj"%string);
                   (mkPath true ["proj"; "nested"], "├── nested"%string);
                   (mkPath true ["proj"; "nested"; "y.txt"], "│   └── y.txt"%string);
                   (mkPath true ["proj"; "x.txt"], "└── x.txt"%string)])).
Proof.
  apply (tree_recursive_exact [] [] [] [] proj fs_nested _ eq_refl).
  exists ["nested"; "y.txt"]%string. split; [|reflexivity].
  eapply shows_below; [right; left; reflexivity|reflexivity|].
  apply (shows_child [] [] [] [] (joinpath proj "nested") "nested" [File "y.txt"]
           (File "y.txt")); [left; reflexivity|reflexivity].
Defined.

Lemma shows_ancestors inc incr exc excr top node rel :
  shows inc incr exc excr top node rel ->
  forall rel1 rel2,
    rel = rel1 ++ rel2 -> rel1 <> [] -> rel2 <> [] ->
    should_process_path (extend top rel1) inc incr exc excr true = true.
Proof.
  induction 1 as [top d cs c Hin Hsel|top d cs d' l' cs' rel Hin Hsel Hs IH];
    intros rel1 rel2 Heq H1 H2.
  - destruct rel1 as [|a [|b rel1]]; [congruence| |discriminate].
    injection Heq as _ Heq. congruence.
  - destruct rel1 as [|a rel1]; [congruence|]. injection Heq as <- Heq.
    destruct rel1 as [|b rel1]; [exact Hsel|].
    specialize (IH (b :: rel1) rel2 Heq ltac:(discriminate) H2).
    rewrite joinpath_extend, extend_extend in IH. exact IH.
Qed.

(** Pruning in the tree, in both modes: every directory between the
    root and an entry that has a line passed the directory check, so
    nothing under an excluded directory is rendered. *)
Theorem tree_avoids_excluded_directories
    inc incr exc excr recursive root_dir root lines above below :
  generate_tree_lines inc incr exc excr recursive root_dir root = Ok lines ->
  In (extend root_dir (above ++ below)) (map fst (tl lines)) ->
  above <> [] -> below <> [] ->
  excluded (extend root_dir above) exc excr = false.
Proof.
  intros H Hin Ha Hb. unfold generate_tree_lines in H.
  bind_inv H. injection H as <-. simpl tl in Hin.
  destruct (tree_lines_shown _ _ _ _ _ _ _ _ _ _ _ Ha0 Hin) as (rel & Hrel & Heq).
  injection Heq as Heq. apply app_inv_head in Heq. subst rel.
  eapply should_process_path_true_not_excluded.
  eapply shows_ancestors; eauto.
Qed.

Lemma tree_avoids_excluded_directories_witness :
  excluded (extend proj ["nested"]) ["*.git*"] [] = false.
Proof.
  apply (tree_avoids_excluded_directories [] [] ["*.git*"] [] false proj fs_nested
           _ ["nested"] ["y.txt"] eq_refl);
    [right; left; reflexivity|discriminate|discriminate].
Defined.

Lemma reaches_shows inc incr exc excr top node rel :
  reaches inc incr exc excr top node rel -> shows inc incr exc excr top node rel.
Proof.
  induction 1 as [top d cs f Hin Hsel|top d cs d' l' cs' rel Hin Hsel Hr IH].
  - now apply (shows_child _ _ _ _ top d cs (File f)).
  - econstructor; eauto.
Qed.

(** The tree and the walker agree: every file that is collected, and so
    has a block in the File Contents section, has a line in the tree, in
    both modes. *)
Theorem collected_files_are_in_tree
    inc incr exc excr recursive root_dir root lines files file_path rel_path :
  generate_tree_lines inc incr exc excr recursive root_dir root = Ok lines ->
  collect_files inc incr exc excr recursive root_dir root = Ok files ->
  In (file_path, rel_path) files ->
  In file_path (map fst (tl lines)).
Proof.
  intros Htree Hfiles Hin.
  unfold generate_tree_lines in Htree. bind_inv Htree. injection Htree as <-.
  simpl tl. unfold collect_files in Hfiles. bind_inv Hfiles. injection Hfiles as <-.
  apply sorted_In in Hin. destruct recursive.
  - rewrite <- (extend_nil root_dir) in Ha0 at 2.
    apply (os_walk_exact _ _ _ _ _ _ _ _ Ha0) in Hin.
    destruct Hin as (rel & Hr & Heq). rewrite extend_nil in Hr.
    injection Heq as -> _. simpl.
    eapply shown_has_line; [apply reaches_shows; exact Hr|exact Ha].
  - destruct root as [f|rname [|] children]; try discriminate.
    destruct (iterdir_files_exact inc incr exc excr root_dir rname children)
      as (found & Hfound & Hchar).
    rewrite Ha0 in Hfound. injection Hfound as <-.
    apply Hchar in Hin. destruct Hin as (f & Hf & Hsel & -> & _).
    apply (generate_tree_child _ _ _ _ _ _ _ _ _ _ (File f) Ha Hf Hsel).
Qed.

Lemma collected_files_are_in_tree_witness :
  In (mkPath true ["proj"; "x.txt"])
     (map fst (tl [(proj, "proj"%string);
                   (mkPath true ["proj"; "nested"], "├── nested"%string);
                   (mkPath true ["proj"; "nested"; "y.txt"], "│   └── y.txt"%string);
                   (mkPath true ["proj"; "x.txt"], "└── x.txt"%string)])).
Proof.
  apply (collected_files_are_in_tree [] [] [] [] false proj fs_nested _ _
           (mkPath true ["proj"; "x.txt"]) (mkPath false ["x.txt"]) eq_refl eq_refl).
  left. reflexivity.
Defined.

(** ** The layout of the lines *)

Lemma last_extend (ps rel : list string) (dflt : string) :
  rel <> [] -> last (ps ++ rel) dflt = last rel dflt.
Proof.
  intros Hrel. induction ps as [|a ps IH]; [reflexivity|].
  simpl. destruct (ps ++ rel) eqn:E; [|exact IH].
  apply app_eq_nil in E. destruct E. congruence.
Qed.

Lemma render_items_line_text recursive directory prefix depth vis ls l :
  render_items recursive directory prefix depth vis = Ok ls -> In l ls ->
  exists item sub,
    In (item, sub) vis
    /\ ((exists conn,
            (conn = "├── "%string \/ conn = "└── "%string)
            /\ l = (joinpath directory (entry_name item),
                    (prefix ++ conn ++ entry_name item)%string))
        \/ (exists unit below,
               (unit = "│   "%string \/ unit = "    "%string)
               /\ sub (joinpath directory (entry_name item))
                      (prefix ++ unit)%string (S depth) = Ok below
               /\ In l below)).
Proof.
  revert ls. induction vis as [|[item sub] vis IH]; simpl; intros ls H Hl.
  - injection H as <-. contradiction.
  - bind_inv H. bind_inv H. injection H as <-.
    destruct Hl as [<-|Hl].
    + exists item, sub. split; [now left|]. left.
      destruct (negb (nonempty vis)); eauto.
    + apply in_app_or in Hl. destruct Hl as [Hl|Hl].
      * exists item, sub. split; [now left|]. right.
        destruct (is_dir item && (recursive || Nat.eqb depth 0)).
        -- destruct (negb (nonempty vis)); eauto 6.
        -- injection Ha as <-. contradiction.
      * destruct (IH _ Ha0 Hl) as (item' & sub' & Hin & Hcase).
        exists item', sub'. split; [now right|exact Hcase].
Qed.

Lemma tree_line_text inc incr exc excr recursive node :
  forall directory prefix depth ls l,
    _generate_tree inc incr exc excr recursive node directory prefix depth = Ok ls ->
    In l ls ->
    exists rel units conn,
      fst l = extend directory rel
      /\ S (List.length units) = List.length rel
      /\ Forall (fun u => u = "│   "%string \/ u = "    "%string) units
      /\ (conn = "├── "%string \/ conn = "└── "%string)
      /\ snd l = (prefix ++ indentation units ++ conn ++ last rel EmptyString)%string.
Proof.
  induction node as [f|d l0 cs IH] using entry_ind';
    intros directory prefix depth ls l; simpl; [discriminate|].
  destruct l0; [|discriminate]. intros H Hl.
  destruct (render_items_line_text _ _ _ _ _ _ _ H Hl) as (item & sub & Hin & Hcase).
  apply filter_In in Hin. destruct Hin as [Hin _].
  apply tree_items_In in Hin. destruct Hin as (c & Hc & Heq).
  injection Heq as -> ->.
  destruct Hcase as [(conn & Hconn & ->)|(unit & below & Hunit & Hbelow & Hmem)].
  - exists [entry_name c], [], conn. simpl. repeat split; auto.
  - rewrite Forall_forall in IH.
    destruct (IH c Hc _ _ _ _ l Hbelow Hmem)
      as (rel & units & conn & Hpath & Hlen & Hunits & Hconn & Htext).
    exists (entry_name c :: rel), (unit :: units), conn.
    assert (Hne : rel <> []) by (destruct rel; [discriminate|discriminate]).
    repeat split; auto.
    + rewrite Hpath, joinpath_extend, extend_extend. reflexivity.
    + simpl. lia.
    + rewrite Htext. simpl indentation. rewrite !append_assoc.
      destruct rel; [congruence|reflexivity].
Qed.

(** Every line below the root's is, in this order: one indentation unit
    ([│   ] or four spaces) for each directory between the root and the
    entry, a connector ([├── ] or [└── ]), and the entry's own name. *)
Theorem tree_line_layout inc incr exc excr recursive root_dir root lines p text :
  generate_tree_lines inc incr exc excr recursive root_dir root = Ok lines ->
  In (p, text) (tl lines) ->
  exists rel units conn,
    p = extend root_dir rel
    /\ S (List.length units) = List.length rel
    /\ Forall (fun u => u = "│   "%string \/ u = "    "%string) units
    /\ (conn = "├── "%string \/ conn = "└── "%string)
    /\ text = (indentation units ++ conn ++ name p)%string.
Proof.
  intros H Hin. unfold generate_tree_lines in H. bind_inv H. injection H as <-.
  simpl tl in Hin.
  destruct (tree_line_text _ _ _ _ _ _ _ _ _ _ _ Ha Hin)
    as (rel & units & conn & Hpath & Hlen & Hunits & Hconn & Htext).
  simpl in Hpath, Htext. subst p text.
  exists rel, units, conn. repeat split; auto.
  unfold name, extend. simpl parts.
  rewrite last_extend; [reflexivity|]. destruct rel; [discriminate|discriminate].
Qed.

Lemma tree_line_layout_witness :
  exists rel units conn,
    mkPath true ["proj"; "nested"; "y.txt"] = extend proj rel
    /\ S (List.length units) = List.length rel
    /\ Forall (fun u => u = "│   "%string \/ u = "    "%string) units
    /\ (conn = "├── "%string \/ conn = "└── "%string)
    /\ "│   └── y.txt"%string
       = (indentation units ++ conn
          ++ name (mkPath true ["proj"; "nested"; "y.txt"]))%string.
Proof.
  apply (tree_line_layout [] [] [] [] true proj fs_nested _ _ _ eq_refl).
  right. left. reflexivity.
Defined.

(** ** The order of a listing *)

Lemma tree_key_le_total a b : tree_key_le a b = true \/ tree_key_le b a = true.
Proof.
  unfold tree_key_le. destruct (is_dir a), (is_dir b); auto using String.leb_total.
Qed.

Lemma tree_key_le_trans a b c :
  tree_key_le a b = true -> tree_key_le b c = true -> tree_key_le a c = true.
Proof.
  unfold tree_key_le. destruct (is_dir a), (is_dir b), (is_dir c);
    try discriminate; auto; apply string_leb_trans.
Qed.

Lemma tree_key_le_listed_before a b :
  tree_key_le a b = true <-> listed_before a b.
Proof.
  unfold tree_key_le, listed_before.
  destruct (is_dir a), (is_dir b); intuition congruence.
Qed.

Lemma StronglySorted_filter {A : Type} (R : A -> A -> Prop) (keep : A -> bool) l :
  StronglySorted R l -> StronglySorted R (filter keep l).
Proof.
  induction 1 as [|x l Hl IH Hx]; simpl; [constructor|].
  destruct (keep x); [|exact IH].
  constructor; [exact IH|].
  apply Forall_forall. intros y Hy. apply filter_In in Hy.
  rewrite Forall_forall in Hx. now apply Hx.
Qed.

Lemma StronglySorted_impl {A : Type} (R R' : A -> A -> Prop) l :
  (forall x y, R x y -> R' x y) -> StronglySorted R l -> StronglySorted R' l.
Proof.
  intros HR. induction 1 as [|x l Hl IH Hx]; constructor; [exact IH|].
  eapply Forall_impl; [|exact Hx]. intros y. apply HR.
Qed.

Lemma StronglySorted_map {A B : Type} (f : A -> B) (R : B -> B -> Prop) l :
  StronglySorted (fun x y => R (f x) (f y)) l -> StronglySorted R (map f l).
Proof.
  induction 1 as [|x l Hl IH Hx]; simpl; constructor; [exact IH|].
  apply Forall_forall. intros y Hy. apply in_map_iff in Hy.
  destruct Hy as (z & <- & Hz). rewrite Forall_forall in Hx. now apply Hx.
Qed.

(** The output of the loop is one block per visible item, in the order
    of the items: the item's own line, then the lines of the call on
    it. *)
Lemma render_items_blocks recursive directory prefix depth vis ls :
  (forall item sub, In (item, sub) vis ->
     forall p pre n below, sub p pre n = Ok below ->
       Forall (fun l => exists rel, rel <> [] /\ fst l = extend p rel) below) ->
  render_items recursive directory prefix depth vis = Ok ls ->
  exists blocks,
    ls = concat blocks
    /\ Forall2 (fun item block =>
                  exists text below,
                    block = (joinpath directory (entry_name item), text) :: below
                    /\ Forall (fun l => exists rel,
                                 rel <> []
                                 /\ fst l = extend (joinpath directory (entry_name item)) rel)
                              below)
               (map fst vis) blocks.
Proof.
  revert ls. induction vis as [|[item sub] vis IH]; simpl; intros ls Hsub H.
  - injection H as <-. exists []. split; [reflexivity|constructor].
  - bind_inv H. bind_inv H. injection H as <-.
    destruct (IH a0) as (blocks & -> & Hblocks); [eauto|exact Ha0|].
    exists (((joinpath directory (entry_name item),
              (prefix ++ (if negb (nonempty vis) then "└── " else "├── ")
               ++ entry_name item)%string) :: a) :: blocks).
    split; [reflexivity|].
    constructor; [|exact Hblocks].
    eexists _, a. split; [reflexivity|].
    destruct (is_dir item && (recursive || Nat.eqb depth 0)).
    + eapply Hsub; eauto.
    + injection Ha as <-. constructor.
Qed.

(** The entries of a directory are rendered in the order of the key
    [(not is_dir, name)]: the directories before the files, and each
    kind by ascending name; the lines of what lies under an entry come
    right after the entry's line, before the next entry of the
    directory. *)
Theorem tree_listing_order inc incr exc excr recursive d cs directory prefix depth ls :
  _generate_tree inc incr exc excr recursive (Dir d true cs) directory prefix depth
  = Ok ls ->
  exists shown blocks,
    StronglySorted listed_before shown
    /\ (forall c,
          In c shown
          <-> In c cs
              /\ is_visible inc incr exc excr recursive directory depth
                   (c, _generate_tree inc incr exc excr recursive c) = true)
    /\ ls = concat blocks
    /\ Forall2 (fun item block =>
                  exists text below,
                    block = (joinpath directory (entry_name item), text) :: below
                    /\ Forall (fun l => exists rel,
                                 rel <> []
                                 /\ fst l = extend (joinpath directory (entry_name item)) rel)
                              below)
               shown blocks.
Proof.
  simpl. intros H.
  match type of H with
  | render_items _ _ _ _ ?vis = _ => set (visible_items := vis) in *
  end.
  assert (Hsub : forall item sub, In (item, sub) visible_items ->
            forall p pre n below, sub p pre n = Ok below ->
              Forall (fun l => exists rel, rel <> [] /\ fst l = extend p rel) below).
  { intros item sub Hin p pre n below Hbelow.
    apply filter_In in Hin. destruct Hin as [Hin _].
    apply tree_items_In in Hin. destruct Hin as (c & _ & Heq).
    injection Heq as -> ->.
    apply generate_tree_lines_below in Hbelow.
    apply Forall_forall. intros l Hl. rewrite Forall_forall in Hbelow.
    destruct (Hbelow (fst l) (in_map fst _ _ Hl)) as (rel & b & Hne & Hp & _).
    eauto. }
  destruct (render_items_blocks _ _ _ _ visible_items _ Hsub H)
    as (blocks & Hls & Hblocks).
  exists (map fst visible_items), blocks. repeat split; auto.
  - apply StronglySorted_map. apply StronglySorted_filter.
    eapply StronglySorted_impl;
      [|apply (sorted_sorted (fun a b : entry * descend => tree_key_le (fst a) (fst b)))].
    + intros x y Hxy. now apply tree_key_le_listed_before.
    + intros x y. apply tree_key_le_total.
    + intros x y z. apply tree_key_le_trans.
  - apply in_map_iff in H0. destruct H0 as ([c' sub] & <- & Hin).
    apply filter_In in Hin. destruct Hin as [Hin _].
    apply tree_items_In in Hin. destruct Hin as (c'' & Hc'' & Heq).
    injection Heq as -> _. exact Hc''.
  - apply in_map_iff in H0. destruct H0 as ([c' sub] & <- & Hin).
    apply filter_In in Hin. destruct Hin as [Hin Hvis].
    apply tree_items_In in Hin. destruct Hin as (c'' & Hc'' & Heq).
    injection Heq as -> ->. exact Hvis.
  - intros [Hc Hvis]. apply in_map_iff.
    exists (c, _generate_tree inc incr exc excr recursive c). split; [reflexivity|].
    apply filter_In. split; [apply tree_items_In; eauto|exact Hvis].
Qed.

Lemma tree_listing_order_witness :
  exists shown blocks,
    StronglySorted listed_before shown
    /\ (forall c,
          In c shown
          <-> In c [File "b.txt"; Dir "z" true []; File "a.txt"]
              /\ is_visible [] [] [] [] true proj 0
                   (c, _generate_tree [] [] [] [] true c) = true)
    /\ [(mkPath true ["proj"; "z"], "├── z"%string);
        (mkPath true ["proj"; "a.txt"], "├── a.txt"%string);
        (mkPath true ["proj"; "b.txt"], "└── b.txt"%string)] = concat blocks
    /\ Forall2 (fun item block =>
                  exists text below,
                    block = (joinpath proj (entry_name item), text) :: below
                    /\ Forall (fun l => exists rel,
                                 rel <> []
                                 /\ fst l = extend (joinpath proj (entry_name item)) rel)
                              below)
               shown blocks.
Proof.
  apply (tree_listing_order [] [] [] [] true "proj"
           [File "b.txt"; Dir "z" true []; File "a.txt"] proj EmptyString 0).
  reflexivity.
Defined.

(** ** When the document is produced *)

(** A collected file that cannot be opened always stops
    [create_markdown]: whatever the rules, the mode and the other files,
    no document is completed. *)
Theorem unopenable_file_stops_create_markdown
    inc incr exc excr recursive file_at input_dir root files file_path rel_path msg :
  collect_files inc incr exc excr recursive input_dir root = Ok files ->
  In (file_path, rel_path) files ->
  file_at file_path = Unopenable msg ->
  exists e, create_markdown inc incr exc excr recursive file_at input_dir root = Raise e.
Proof.
  intros Hfiles Hin Hdata. unfold create_markdown.
  destruct (generate_tree inc incr exc excr recursive input_dir root); simpl; [|eauto].
  rewrite Hfiles. simpl.
  destruct (write_file_blocks_unopenable file_at files _ _ _ Hin Hdata) as (e & ->).
  simpl. eauto.
Qed.

Lemma unopenable_file_stops_create_markdown_witness :
  exists e,
    create_markdown [] [] [] [] true
      (fun p => if (name p =? "y.txt")%string
                then Unopenable "Permission denied" else Text "hello")
      proj fs_nested = Raise e.
Proof.
  apply (unopenable_file_stops_create_markdown [] [] [] [] true _ proj fs_nested _
           (mkPath true ["proj"; "nested"; "y.txt"]) (mkPath false ["nested"; "y.txt"])
           "Permission denied" eq_refl);
    [left; reflexivity|reflexivity].
Defined.
